(** * PoseCare frame pipeline: rep counters, form scorer, angle engine,
      keypoint stabilizer and subject selector

    Shallow embedding of [posecare_core.py] and of the selection part of
    [posecare_main.py].

    Numbers.  The source computes with IEEE floats.  Here every float is
    read as the exact number it denotes and arithmetic is exact:
    - the rep counters and the form scorer only compare angles with
      constants and apply field operations, so they are modelled over the
      rationals [Q] and stay executable;
    - the angle engine, the stabilizer and the selector take square roots
      (and an arc cosine), so they are modelled over the reals [R].
    Rounding error, overflow, infinities and NaN are outside this model. *)

From Stdlib Require Import ZArith QArith Qround String List Bool Lia.
From Stdlib Require Import Reals Lqa Lra.
Import ListNotations.
Local Open Scope Z_scope.

(** ** Python helpers over [Q] *)

(** [x < y] on floats, as a boolean. *)
Definition Qltb (x y : Q) : bool := negb (Qle_bool y x).

(** Python's [min(a, b)]: [b] when [b < a], else [a]. *)
Definition py_min (a b : Q) : Q := if Qltb b a then b else a.

(** Python's [max(a, b)]: [b] when [b > a], else [a]. *)
Definition py_max (a b : Q) : Q := if Qltb a b then b else a.

(** Python's [round(x)] of a float to an int: nearest integer, ties to the
    even one. *)
Definition py_round (x : Q) : Z :=
  let f := Qfloor x in
  let r := (x - inject_Z f)%Q in
  if Qltb r (1 # 2) then f
  else if Qltb (1 # 2) r then (f + 1)%Z
  else if Z.even f then f else (f + 1)%Z.

(** ** Constants *)

Definition SQUAT_DOWN_MAX : Q := 120.
Definition SQUAT_UP_MIN : Q := 165.
Definition STS_SIT_MAX : Q := 120.
Definition STS_STAND_MIN : Q := 165.
Definition LR_UP_MAX : Q := 120.
Definition LR_DOWN_MIN : Q := 165.
Definition MIN_DWELL : Z := 3.

(** ** The rep counter *)

Record RepCounter : Type := mkRepCounter {
  exercise : string;
  reps : Z;
  state : string;
  dwell : Z;
  form_pct : Z
}.

(** The dataclass defaults: [RepCounter()]. *)
Definition RepCounter_default : RepCounter :=
  mkRepCounter "squat" 0 EmptyString 0 0.

(** [rc.reset(exercise)]; an absent or empty name keeps the old one. *)
Definition reset (ex : option string) (rc : RepCounter) : RepCounter :=
  {| exercise := match ex with
                 | Some e => if String.eqb e EmptyString then exercise rc else e
                 | None => exercise rc
                 end;
     reps := 0; state := EmptyString; dwell := 0; form_pct := 0 |}.

Definition set_phase (s : string) (d : Z) (rc : RepCounter) : RepCounter :=
  {| exercise := exercise rc; reps := reps rc; state := s; dwell := d;
     form_pct := form_pct rc |}.

Definition set_dwell (d : Z) (rc : RepCounter) : RepCounter :=
  {| exercise := exercise rc; reps := reps rc; state := state rc; dwell := d;
     form_pct := form_pct rc |}.

Definition incr_reps (rc : RepCounter) : RepCounter :=
  {| exercise := exercise rc; reps := reps rc + 1; state := state rc;
     dwell := dwell rc; form_pct := form_pct rc |}.

Definition set_form_pct (q : Z) (rc : RepCounter) : RepCounter :=
  {| exercise := exercise rc; reps := reps rc; state := state rc;
     dwell := dwell rc; form_pct := q |}.

(** [if q is not None: rc.form_pct = q] *)
Definition store_quality (q : option Z) (rc : RepCounter) : RepCounter :=
  match q with
  | Some v => set_form_pct v rc
  | None => rc
  end.

(** ** Form quality and exercise logic

    The angle engine is a parameter of this part: [knee_angles] and
    [hip_angle_side] are called on the frame's keypoints (of type [Kps])
    and only their results are used. *)

Definition _clamp01 (x : Q) : Q := py_max 0 (py_min 1 x).

Section Exercises.

Variable Kps : Type.
Variable knee_angles : Kps -> option Q * option Q.
Variable hip_angle_side : Kps -> string -> option Q.

Definition knee_score (a : Q) : Q := _clamp01 ((180 - a) / (180 - 90)).

Definition form_quality_squat (kps : Kps) : option Z :=
  match knee_angles kps with
  | (Some Lk, Some Rk) =>
      let q := ((1 # 2) * (knee_score Lk + knee_score Rk))%Q in
      Some (py_round (100 * q))
  | _ => None
  end.

Definition ext_score (a : Q) : Q := _clamp01 ((a - 120) / (180 - 120)).

Definition form_quality_sts (kps : Kps) : option Z :=
  match knee_angles kps with
  | (Some Lk, Some Rk) =>
      let q := ((1 # 2) * (ext_score Lk + ext_score Rk))%Q in
      Some (py_round (100 * q))
  | _ => None
  end.

(** [float(np.mean(vals))] of a non-empty list. *)
Definition mean (vals : list Q) : Q :=
  (fold_right Qplus 0 vals / inject_Z (Z.of_nat (length vals)))%Q.

Definition form_quality_legraise (kps : Kps) : option Z :=
  let Lh := hip_angle_side kps "l" in
  let Rh := hip_angle_side kps "r" in
  match Lh, Rh with
  | None, None => None
  | _, _ =>
      let vals := [] in
      let vals := match Lh with
                  | Some a => vals ++ [_clamp01 ((180 - a) / (180 - 90))]
                  | None => vals
                  end in
      let vals := match Rh with
                  | Some a => vals ++ [_clamp01 ((180 - a) / (180 - 90))]
                  | None => vals
                  end in
      match vals with
      | [] => None
      | _ => Some (py_round (100 * mean vals))
      end
  end.

Definition logic_squat (kps : Kps) (rc : RepCounter) : RepCounter :=
  match knee_angles kps with
  | (Some Lk, Some Rk) =>
      let down := Qltb Lk SQUAT_DOWN_MAX && Qltb Rk SQUAT_DOWN_MAX in
      let up := Qltb SQUAT_UP_MIN Lk && Qltb SQUAT_UP_MIN Rk in
      let rc :=
        if String.eqb (state rc) EmptyString then set_phase "up" 0 rc
        else if String.eqb (state rc) "up" then
          let rc := set_dwell (if down then dwell rc + 1 else 0) rc in
          if down && (MIN_DWELL <=? dwell rc) then set_phase "down" 0 rc
          else rc
        else if String.eqb (state rc) "down" then
          let rc := set_dwell (if up then dwell rc + 1 else 0) rc in
          if up && (MIN_DWELL <=? dwell rc)
          then set_phase "up" 0 (incr_reps rc)
          else rc
        else rc in
      store_quality (form_quality_squat kps) rc
  | _ => rc
  end.

Definition logic_sts (kps : Kps) (rc : RepCounter) : RepCounter :=
  match knee_angles kps with
  | (Some Lk, Some Rk) =>
      let sit := Qltb Lk STS_SIT_MAX && Qltb Rk STS_SIT_MAX in
      let stand := Qltb STS_STAND_MIN Lk && Qltb STS_STAND_MIN Rk in
      let rc :=
        if String.eqb (state rc) EmptyString then set_phase "sit" 0 rc
        else if String.eqb (state rc) "sit" then
          let rc := set_dwell (if stand then dwell rc + 1 else 0) rc in
          if stand && (MIN_DWELL <=? dwell rc)
          then set_phase "stand" 0 (incr_reps rc)
          else rc
        else if String.eqb (state rc) "stand" then
          let rc := set_dwell (if sit then dwell rc + 1 else 0) rc in
          if sit && (MIN_DWELL <=? dwell rc) then set_phase "sit" 0 rc
          else rc
        else rc in
      store_quality (form_quality_sts kps) rc
  | _ => rc
  end.

(** [any_up] and [both_down] of [logic_leg_raise]: a side that is absent
    leaves [any_up] false and [both_down] true. *)
Definition lr_any_up (Lh Rh : option Q) : bool :=
  let any_up := false in
  let any_up := match Lh with
                | Some a => any_up || Qltb a LR_UP_MAX
                | None => any_up
                end in
  match Rh with
  | Some a => any_up || Qltb a LR_UP_MAX
  | None => any_up
  end.

Definition lr_both_down (Lh Rh : option Q) : bool :=
  let both_down := true in
  let both_down := match Lh with
                   | Some a => both_down && Qltb LR_DOWN_MIN a
                   | None => both_down
                   end in
  match Rh with
  | Some a => both_down && Qltb LR_DOWN_MIN a
  | None => both_down
  end.

Definition logic_leg_raise (kps : Kps) (rc : RepCounter) : RepCounter :=
  let Lh := hip_angle_side kps "l" in
  let Rh := hip_angle_side kps "r" in
  match Lh, Rh with
  | None, None => rc
  | _, _ =>
      let any_up := lr_any_up Lh Rh in
      let both_down := lr_both_down Lh Rh in
      let rc :=
        if String.eqb (state rc) EmptyString then set_phase "down" 0 rc
        else if String.eqb (state rc) "down" then
          let rc := set_dwell (if any_up then dwell rc + 1 else 0) rc in
          if any_up && (MIN_DWELL <=? dwell rc) then set_phase "up" 0 rc
          else rc
        else if String.eqb (state rc) "up" then
          let rc := set_dwell (if both_down then dwell rc + 1 else 0) rc in
          if both_down && (MIN_DWELL <=? dwell rc)
          then set_phase "down" 0 (incr_reps rc)
          else rc
        else rc in
      store_quality (form_quality_legraise kps) rc
  end.

End Exercises.

Arguments form_quality_squat {Kps} knee_angles kps.
Arguments form_quality_sts {Kps} knee_angles kps.
Arguments form_quality_legraise {Kps} hip_angle_side kps.
Arguments logic_squat {Kps} knee_angles kps rc.
Arguments logic_sts {Kps} knee_angles kps rc.
Arguments logic_leg_raise {Kps} hip_angle_side kps rc.

(** Feeding a sequence of frames to a logic function, oldest first. *)
Definition run {F : Type} (logic : F -> RepCounter -> RepCounter)
    (frames : list F) (rc : RepCounter) : RepCounter :=
  fold_left (fun rc f => logic f rc) frames rc.

(** A frame given by one knee angle, the same for both legs. *)
Definition both_knees (a : Q) : option Q * option Q := (Some a, Some a).

(** ** The shared shape of the three counters

    Each logic function is a two-phase hysteresis machine.  [hysteresis]
    names what differs between them, [hyst_step] is the common frame step,
    and the [logic_*_hyst] lemmas below show that each source function is
    that step. *)

Record hysteresis (F : Type) : Type := mkHysteresis {
  start : string;             (* phase set on the first measured frame *)
  other : string;
  measured : F -> bool;       (* the frame has a valid measurement *)
  leave_start : F -> bool;    (* condition leading from [start] to [other] *)
  leave_other : F -> bool;    (* condition leading from [other] to [start] *)
  count_leaving_start : bool; (* reps grow on start->other, else other->start *)
  quality : F -> option Z
}.

Arguments start {F} _.
Arguments other {F} _.
Arguments measured {F} _ _.
Arguments leave_start {F} _ _.
Arguments leave_other {F} _ _.
Arguments count_leaving_start {F} _.
Arguments quality {F} _ _.

Definition hyst_step {F : Type} (M : hysteresis F) (f : F) (rc : RepCounter)
    : RepCounter :=
  if measured M f then
    let rc :=
      if String.eqb (state rc) EmptyString then set_phase (start M) 0 rc
      else if String.eqb (state rc) (start M) then
        let rc := set_dwell (if leave_start M f then dwell rc + 1 else 0) rc in
        if leave_start M f && (MIN_DWELL <=? dwell rc)
        then set_phase (other M) 0
               (if count_leaving_start M then incr_reps rc else rc)
        else rc
      else if String.eqb (state rc) (other M) then
        let rc := set_dwell (if leave_other M f then dwell rc + 1 else 0) rc in
        if leave_other M f && (MIN_DWELL <=? dwell rc)
        then set_phase (start M) 0
               (if count_leaving_start M then rc else incr_reps rc)
        else rc
      else rc in
    store_quality (quality M f) rc
  else rc.

Section Machines.

Variable Kps : Type.
Variable knee_angles : Kps -> option Q * option Q.
Variable hip_angle_side : Kps -> string -> option Q.

(** Both knee angles are present. *)
Definition knees_measured (kps : Kps) : bool :=
  match knee_angles kps with
  | (Some _, Some _) => true
  | _ => false
  end.

(** Both knee angles are present and below [c]. *)
Definition knees_below (c : Q) (kps : Kps) : bool :=
  match knee_angles kps with
  | (Some Lk, Some Rk) => Qltb Lk c && Qltb Rk c
  | _ => false
  end.

(** Both knee angles are present and above [c]. *)
Definition knees_above (c : Q) (kps : Kps) : bool :=
  match knee_angles kps with
  | (Some Lk, Some Rk) => Qltb c Lk && Qltb c Rk
  | _ => false
  end.

(** At least one hip angle is present. *)
Definition hips_measured (kps : Kps) : bool :=
  match hip_angle_side kps "l", hip_angle_side kps "r" with
  | None, None => false
  | _, _ => true
  end.

Definition hips_any_up (kps : Kps) : bool :=
  lr_any_up (hip_angle_side kps "l") (hip_angle_side kps "r").

Definition hips_both_down (kps : Kps) : bool :=
  lr_both_down (hip_angle_side kps "l") (hip_angle_side kps "r").

Definition squat_machine : hysteresis Kps :=
  {| start := "up"; other := "down";
     measured := knees_measured;
     leave_start := knees_below SQUAT_DOWN_MAX;
     leave_other := knees_above SQUAT_UP_MIN;
     count_leaving_start := false;
     quality := form_quality_squat knee_angles |}.

Definition sts_machine : hysteresis Kps :=
  {| start := "sit"; other := "stand";
     measured := knees_measured;
     leave_start := knees_above STS_STAND_MIN;
     leave_other := knees_below STS_SIT_MAX;
     count_leaving_start := true;
     quality := form_quality_sts knee_angles |}.

Definition leg_raise_machine : hysteresis Kps :=
  {| start := "down"; other := "up";
     measured := hips_measured;
     leave_start := hips_any_up;
     leave_other := hips_both_down;
     count_leaving_start := false;
     quality := form_quality_legraise hip_angle_side |}.

End Machines.

Arguments knees_measured {Kps} knee_angles kps.
Arguments knees_below {Kps} knee_angles c kps.
Arguments knees_above {Kps} knee_angles c kps.
Arguments hips_measured {Kps} hip_angle_side kps.
Arguments hips_any_up {Kps} hip_angle_side kps.
Arguments hips_both_down {Kps} hip_angle_side kps.
Arguments squat_machine {Kps} knee_angles.
Arguments sts_machine {Kps} knee_angles.
Arguments leg_raise_machine {Kps} hip_angle_side.

(** ** Vocabulary for statements about runs *)

(** The last three entries of [vs] exist and all satisfy [c]. *)
Definition last3_hold {F : Type} (c : F -> bool) (vs : list F) : Prop :=
  exists pre f1 f2 f3,
    vs = pre ++ [f1; f2; f3] /\ c f1 = true /\ c f2 = true /\ c f3 = true.

(** The last [d] entries of [vs] exist and all satisfy [c], and [d] is below
    the dwell threshold. *)
Definition trail {F : Type} (c : F -> bool) (vs : list F) (d : Z) : Prop :=
  0 <= d < MIN_DWELL /\
  exists pre suf,
    vs = pre ++ suf /\ Z.of_nat (length suf) = d /\
    Forall (fun f => c f = true) suf.

(** What a counter started from a reset knows after the frames [fs]: its
    dwell count is the number of measured frames, counted back from the
    latest, on which the condition for leaving its phase held. *)
Definition tracked {F : Type} (M : hysteresis F) (fs : list F)
    (rc : RepCounter) : Prop :=
  (state rc = EmptyString /\ dwell rc = 0) \/
  (state rc = start M /\
   trail (leave_start M) (filter (measured M) fs) (dwell rc)) \/
  (state rc = other M /\
   trail (leave_other M) (filter (measured M) fs) (dwell rc)).

(** Number of frames of a run on which the phase goes from [p] to [q]. *)
Fixpoint transitions {F : Type} (logic : F -> RepCounter -> RepCounter)
    (p q : string) (frames : list F) (rc : RepCounter) : Z :=
  match frames with
  | [] => 0
  | f :: frames' =>
      let rc' := logic f rc in
      (if String.eqb (state rc) p && String.eqb (state rc') q then 1 else 0)
      + transitions logic p q frames' rc'
  end.

(** Started from a reset, [logic] changes phase (in either direction of the
    machine [M]) only on a frame that completes three measured frames in a
    row on which the condition for that change held. *)
Definition dwell_guarded {F : Type} (logic : F -> RepCounter -> RepCounter)
    (M : hysteresis F) : Prop :=
  forall (fs : list F) (f : F) (ex : option string) (rc0 : RepCounter),
    let rc := run logic fs (reset ex rc0) in
    (state rc = start M -> state (logic f rc) = other M ->
     last3_hold (leave_start M) (filter (measured M) (fs ++ [f]))) /\
    (state rc = other M -> state (logic f rc) = start M ->
     last3_hold (leave_other M) (filter (measured M) (fs ++ [f]))).

(** A measured frame on which the condition for leaving the current phase
    fails leaves the phase as it is and sets the dwell count to zero. *)
Definition dwell_cleared {F : Type} (logic : F -> RepCounter -> RepCounter)
    (M : hysteresis F) : Prop :=
  forall (f : F) (rc : RepCounter),
    measured M f = true ->
    (state rc = start M /\ leave_start M f = false) \/
    (state rc = other M /\ leave_other M f = false) ->
    dwell (logic f rc) = 0 /\ state (logic f rc) = state rc.

(** A squat counter that has counted nothing and is standing (or has not
    seen a measured frame yet). *)
Definition squat_idle (rc : RepCounter) : Prop :=
  reps rc = 0 /\ (state rc = EmptyString \/ state rc = "up"%string).

(** ** Python and NumPy helpers over [R] *)

Section RealHelpers.
Local Open Scope R_scope.

Definition Rltb (x y : R) : bool := if Rlt_dec x y then true else false.
Definition Rleb (x y : R) : bool := if Rle_dec x y then true else false.

(** Python's [max(a, b)] and [min(a, b)] on floats. *)
Definition py_maxR (a b : R) : R := if Rltb a b then b else a.
Definition py_minR (a b : R) : R := if Rltb b a then b else a.

(** A one-dimensional array. *)
Definition vec : Type := list R.

(** Element-wise [u - v] of two arrays of the same shape. *)
Fixpoint vsub (u v : vec) : vec :=
  match u, v with
  | x :: u', y :: v' => (x - y) :: vsub u' v'
  | _, _ => []
  end.

(** [np.dot(u, v)] *)
Fixpoint dot (u v : vec) : R :=
  match u, v with
  | x :: u', y :: v' => x * y + dot u' v'
  | _, _ => 0
  end.

(** [np.linalg.norm(v)] *)
Definition norm (v : vec) : R := sqrt (dot v v).

(** [np.clip(x, lo, hi)] *)
Definition clip (x lo hi : R) : R := Rmin (Rmax x lo) hi.

(** [math.degrees(x)] *)
Definition degrees (x : R) : R := x * (180 / PI).

End RealHelpers.

(** ** Angle engine *)

Section AngleEngine.
Local Open Scope R_scope.

(** The norm below which a vector counts as degenerate: [1e-6]. *)
Definition NORM_EPS : R := 1 / 1000000.

(** An argument of [angle_3pt]: [None] or an array. *)
Definition point : Type := option vec.

(** [p is not None and p.shape == (2,) and p[0] > 0 and p[1] > 0] *)
Definition _valid_point (p : point) : bool :=
  match p with
  | Some [x; y] => Rltb 0 x && Rltb 0 y
  | _ => false
  end.

Definition angle_3pt (a b c : point) : option R :=
  if negb (_valid_point a && _valid_point b && _valid_point c) then None
  else
    match a, b, c with
    | Some a, Some b, Some c =>
        let v1 := vsub a b in
        let v2 := vsub c b in
        let n1 := norm v1 in
        let n2 := norm v2 in
        if Rltb n1 NORM_EPS || Rltb n2 NORM_EPS then None
        else
          let cosx := clip (dot v1 v2 / (n1 * n2)) (-1) 1 in
          Some (degrees (acos cosx))
    | _, _, _ => None
    end.

(** The three points are arrays of shape (2,) with positive coordinates
    and both vectors [a - b] and [c - b] have norm at least [lo] (strictly
    more when [strict] is set). *)
Definition positive2 (v : vec) : Prop :=
  exists x y, v = [x; y] /\ 0 < x /\ 0 < y.

Definition well_posed (strict : bool) (a b c : point) : Prop :=
  exists va vb vc,
    a = Some va /\ b = Some vb /\ c = Some vc /\
    positive2 va /\ positive2 vb /\ positive2 vc /\
    (if strict
     then NORM_EPS < norm (vsub va vb) /\ NORM_EPS < norm (vsub vc vb)
     else NORM_EPS <= norm (vsub va vb) /\ NORM_EPS <= norm (vsub vc vb)).

End AngleEngine.

(** ** Keypoint stabilizer *)

(** [l[i] = v] on a list; the caller checks the index. *)
Fixpoint set_nth {A : Type} (l : list A) (i : nat) (v : A) : list A :=
  match l, i with
  | [], _ => []
  | _ :: l', O => v :: l'
  | x :: l', S i' => x :: set_nth l' i' v
  end.

(** The exception the array accesses can raise. *)
Inductive exn : Type := IndexError.

Module EMAStabilizer.
Local Open Scope R_scope.

Definition KEYPT_MIN_CONF : R := 35 / 100.

(** One row of an (n, 2) array, and the array. *)
Definition landmark : Type := (R * R)%type.
Definition landmarks : Type := list landmark.

Record t : Type := mk {
  alpha_fast : R;
  alpha_slow : R;
  state : option landmarks
}.

(** [EMAStabilizer(alpha_fast, alpha_slow)]; the defaults are 0.45, 0.15. *)
Definition init (alpha_fast alpha_slow : R) : t :=
  mk alpha_fast alpha_slow None.

Definition default : t := init (45 / 100) (15 / 100).

Definition with_state (self : t) (s : landmarks) : t :=
  mk (alpha_fast self) (alpha_slow self) (Some s).

Definition sentinel : landmark := (-1, -1).

(** [p[0] <= 0 or p[1] <= 0] *)
Definition invalid (p : landmark) : bool :=
  Rleb (fst p) 0 || Rleb (snd p) 0.

(** [kps[~mask_good] = -1.0] for a mask as long as [kps]. *)
Fixpoint mask_low (kps : landmarks) (mask_good : list bool) : landmarks :=
  match kps, mask_good with
  | p :: kps', g :: mask' =>
      (if g then p else sentinel) :: mask_low kps' mask'
  | _, _ => []
  end.

(** The body of the loop for one joint, given its stored and its current
    (masked) value. *)
Definition smooth (self : t) (prev cur : landmark) : landmark :=
  if invalid cur then sentinel
  else if invalid prev then cur
  else
    let dist := norm [fst cur - fst prev; snd cur - snd prev] in
    let alpha := if Rltb 6 dist then alpha_fast self else alpha_slow self in
    ((1 - alpha) * fst prev + alpha * fst cur,
     (1 - alpha) * snd prev + alpha * snd cur).

(** One pass of [for i in range(17)]: [out[i]] is assigned from
    [self.state[i]] and [kps[i]]; [None] stands for an index out of
    range. *)
Definition loop_body (self : t) (st kps : landmarks)
    (out : option landmarks) (i : nat) : option landmarks :=
  match out with
  | Some out =>
      match nth_error kps i, nth_error st i with
      | Some cur, Some prev => Some (set_nth out i (smooth self prev cur))
      | _, _ => None
      end
  | None => None
  end.

(** [update(kps, conf)]: what is returned (or raised) and the object
    afterwards. *)
Definition update (self : t) (kps : option landmarks) (conf : option (list R))
    : (exn + option landmarks) * t :=
  match kps, conf with
  | Some kps, Some conf =>
      if negb (Nat.eqb (length kps) 17) || Nat.ltb (length conf) 17
      then (inr None, self)
      else
        let mask_good := map (fun c => Rleb KEYPT_MIN_CONF c) conf in
        if negb (Nat.eqb (length mask_good) (length kps))
        then (inl IndexError, self)
        else
          let kps := mask_low kps mask_good in
          match state self with
          | None => (inr (Some kps), with_state self kps)
          | Some st =>
              match fold_left (loop_body self st kps) (seq 0 17) (Some st) with
              | Some out => (inr (Some out), with_state self out)
              | None => (inl IndexError, self)
              end
          end
  | _, _ => (inr None, self)
  end.

(** The landmarks after confidence masking. *)
Definition masked (kps : landmarks) (conf : list R) : landmarks :=
  mask_low kps (map (fun c => Rleb KEYPT_MIN_CONF c) conf).

(** The loop's result written as one map over the joints. *)
Definition smoothed (self : t) (st kps : landmarks) : landmarks :=
  map (fun pc => smooth self (fst pc) (snd pc)) (combine st kps).

End EMAStabilizer.

(** ** Vocabulary for statements about smoothed values *)

Section Blend.
Local Open Scope R_scope.

(** [(1.0 - alpha) * prev + alpha * cur], the value the loop assigns when
    both the stored and the current value are valid. *)
Definition blend (alpha : R) (prev cur : EMAStabilizer.landmark)
    : EMAStabilizer.landmark :=
  ((1 - alpha) * fst prev + alpha * fst cur,
   (1 - alpha) * snd prev + alpha * snd cur).

(** A confidence so far below the floor 0.35 that it stays below it when
    the confidence and the floor are rounded to single precision, as the
    source compares them. *)
Definition CONF_CLEARLY_LOW : R := 3499999 / 10000000.

End Blend.

(** ** Subject selector *)

Section Selector.
Local Open Scope R_scope.

(** A bounding box [x1, y1, x2, y2]. *)
Definition box : Type := (R * R * R * R)%type.

Definition _bbox_center_bonus (xyxy : box) (W H : Z) : R :=
  let '(x1, y1, x2, y2) := xyxy in
  let cx := 1 / 2 * (x1 + x2) / py_maxR 1 (IZR W) in
  let cy := 1 / 2 * (y1 + y2) / py_maxR 1 (IZR H) in
  let dx := cx - 1 / 2 in
  let dy := cy - 1 / 2 in
  let dist := sqrt (dx * dx + dy * dy) in
  py_maxR 0 (15 / 100 - dist).

Definition _iou (a b : option box) : R :=
  match a, b with
  | Some (ax1, ay1, ax2, ay2), Some (bx1, by1, bx2, by2) =>
      let ix1 := py_maxR ax1 bx1 in
      let iy1 := py_maxR ay1 by1 in
      let ix2 := py_minR ax2 bx2 in
      let iy2 := py_minR ay2 by2 in
      let iw := py_maxR 0 (ix2 - ix1) in
      let ih := py_maxR 0 (iy2 - iy1) in
      let inter := iw * ih in
      let areaA := py_maxR 0 ((ax2 - ax1) * (ay2 - ay1)) in
      let areaB := py_maxR 0 ((bx2 - bx1) * (by2 - by1)) in
      let denom := areaA + areaB - inter + 1 / 1000000 in
      inter / denom
  | _, _ => 0
  end.

(** [np.nanmean] of a row of confidences (no NaN in this model). *)
Definition nanmean (l : list R) : R :=
  fold_right Rplus 0 l / INR (length l).

(** The detector's result for a frame: per person the 17 landmarks, the 17
    confidences and the box. *)
Record Keypoints : Type := mkKeypoints {
  xy : option (list (list (R * R)));
  conf : option (list (list R))
}.

Record Results : Type := mkResults {
  keypoints : option Keypoints;
  boxes : option (list box)
}.

(** [len(res.keypoints)]: the number of persons. *)
Definition len_keypoints (k : Keypoints) : nat :=
  match xy k with
  | Some l => length l
  | None => 0
  end.

(** Lines 79-82: the score of the candidate with box [bb] and confidences
    [cf]. *)
Definition candidate_score (W H : Z) (prev_bb : option box) (bb : box)
    (cf : list R) : R :=
  let mean_conf := nanmean cf in
  let bonus := _bbox_center_bonus bb W H in
  mean_conf + bonus + 20 / 100 * _iou prev_bb (Some bb).

(** One pass of the loop over the candidates, on [(best_i, best_s)]. *)
Definition select_step (W H : Z) (prev_bb : option box)
    (kconf : list (list R)) (bxs : list box)
    (acc : exn + option nat * R) (i : nat) : exn + option nat * R :=
  match acc with
  | inr (best_i, best_s) =>
      match nth_error bxs i, nth_error kconf i with
      | Some bb, Some cf =>
          let score := candidate_score W H prev_bb bb cf in
          if Rltb best_s score then inr (Some i, score)
          else inr (best_i, best_s)
      | _, _ => inl IndexError
      end
  | inl e => inl e
  end.

(** The selected person: index, landmarks, confidences and box. *)
Definition selection : Type :=
  (nat * list (R * R) * list R * box)%type.

Definition pick_best_person (res : option Results) (W H : Z)
    (prev_bb : option box) : exn + option selection :=
  match res with
  | None => inr None
  | Some res =>
      match keypoints res with
      | None => inr None
      | Some kp =>
          if Nat.eqb (len_keypoints kp) 0 then inr None
          else
            match xy kp, conf kp, boxes res with
            | Some kxy, Some kconf, Some bxs =>
                match fold_left (select_step W H prev_bb kconf bxs)
                        (seq 0 (length kxy))
                        (inr (None, - 1000000000)) with
                | inl e => inl e
                | inr (None, _) => inr None
                | inr (Some best_i, _) =>
                    match nth_error kxy best_i, nth_error kconf best_i,
                          nth_error bxs best_i with
                    | Some k, Some c, Some b => inr (Some (best_i, k, c, b))
                    | _, _, _ => inl IndexError
                    end
                end
            | _, _, _ => inr None
            end
      end
  end.

(** A result with all three arrays present. *)
Definition detections (kxy : list (list (R * R))) (kconf : list (list R))
    (bxs : list box) : option Results :=
  Some (mkResults (Some (mkKeypoints (Some kxy) (Some kconf))) (Some bxs)).

(** The scores of the candidates, in detection order. *)
Definition scores (W H : Z) (prev_bb : option box) (kconf : list (list R))
    (bxs : list box) : list R :=
  map (fun bc => candidate_score W H prev_bb (fst bc) (snd bc))
    (combine bxs kconf).

(** What the loop has established after the first [n] candidates. *)
Definition best_so_far (ss : list R) (n : nat) (acc : option nat * R)
    : Prop :=
  match fst acc with
  | None =>
      snd acc = - 1000000000 /\
      forall j s, (j < n)%nat -> nth_error ss j = Some s -> s <= snd acc
  | Some i =>
      (i < n)%nat /\ nth_error ss i = Some (snd acc) /\
      - 1000000000 < snd acc /\
      (forall j s, (j < n)%nat -> nth_error ss j = Some s -> s <= snd acc) /\
      (forall j s, (j < i)%nat -> nth_error ss j = Some s -> s < snd acc)
  end.

Definition box_centre : box := (40, 40, 60, 60).

End Selector.

(** ** Vocabulary for further statements about the counters *)

(** The phase label belongs to the machine: empty, [start] or [other]. *)
Definition own_label {F : Type} (M : hysteresis F) (s : string) : Prop :=
  s = EmptyString \/ s = start M \/ s = other M.

(** One for a frame on which the phase goes the way that counts a rep. *)
Definition counted {F : Type} (M : hysteresis F) (before after : string)
    : Z :=
  if count_leaving_start M
  then (if String.eqb before (start M) && String.eqb after (other M)
        then 1 else 0)
  else (if String.eqb before (other M) && String.eqb after (start M)
        then 1 else 0).

(** Measured frames a counter has used up: six per counted rep, three for
    the phase that does not count, and the current dwell. *)
Definition progress {F : Type} (M : hysteresis F) (rc : RepCounter) : Z :=
  6 * reps rc + dwell rc +
  (if count_leaving_start M
   then (if String.eqb (state rc) (start M) then 0 else -3)
   else (if String.eqb (state rc) (other M) then 3 else 0)).

(** Number of frames of [fs] that carry a valid measurement. *)
Definition measured_count {F : Type} (M : hysteresis F) (fs : list F) : Z :=
  Z.of_nat (length (filter (measured M) fs)).

(** A frame given by its two hip angles. *)
Definition hips (f : option Q * option Q) (side : string) : option Q :=
  if String.eqb side "l" then fst f else snd f.

(** Started from a reset, the counter keeps its dwell count below the
    threshold and its reps non-negative, and its label is empty exactly as
    long as no frame was measured. *)
Definition settled {F : Type} (logic : F -> RepCounter -> RepCounter)
    (M : hysteresis F) : Prop :=
  forall (fs : list F) (ex : option string) (rc0 : RepCounter),
    let rc := run logic fs (reset ex rc0) in
    0 <= dwell rc < MIN_DWELL /\ 0 <= reps rc /\
    (if measured_count M fs =? 0 then state rc = EmptyString
     else state rc = start M \/ state rc = other M).

(** With a label that is not one of the machine's, no run changes reps,
    label or dwell. *)
Definition frozen_on_foreign_label {F : Type}
    (logic : F -> RepCounter -> RepCounter) (M : hysteresis F) : Prop :=
  forall (fs : list F) (rc : RepCounter),
    ~ own_label M (state rc) ->
    let rc' := run logic fs rc in
    reps rc' = reps rc /\ state rc' = state rc /\ dwell rc' = dwell rc.

(** Between 0 and 100. *)
Definition percent (q : Z) : Prop := 0 <= q <= 100.

(** ** Knee and hip angles of a landmark array *)

Module Angles.

Section KeypointIndex.
Local Open Scope nat_scope.
Local Open Scope string_scope.

(** The index of each joint in the 17-row landmark array. *)
Definition KP : list (string * nat) :=
  [("nose", 0); ("leye", 1); ("reye", 2); ("lear", 3); ("rear", 4);
   ("lsh", 5); ("rsh", 6); ("lelb", 7); ("relb", 8); ("lwri", 9);
   ("rwri", 10); ("lhip", 11); ("rhip", 12); ("lknee", 13); ("rknee", 14);
   ("lank", 15); ("rank", 16)].

End KeypointIndex.

Local Open Scope R_scope.

(** [KP[name]] for a name of the table. *)
Definition kp (name : string) : nat :=
  match find (fun e => String.eqb (fst e) name) KP with
  | Some e => snd e
  | None => 0%nat
  end.

(** [kps[i]]: a row of the array, or an index out of range. *)
Definition row (kps : list vec) (i : nat) : exn + point :=
  match nth_error kps i with
  | Some v => inr (Some v)
  | None => inl IndexError
  end.

(** [angle_3pt(kps[i], kps[j], kps[k])] *)
Definition angle_rows (kps : list vec) (i j k : nat) : exn + option R :=
  match row kps i, row kps j, row kps k with
  | inr a, inr b, inr c => inr (angle_3pt a b c)
  | _, _, _ => inl IndexError
  end.

Definition knee_angles (kps : list vec) : exn + option R * option R :=
  match angle_rows kps (kp "lhip") (kp "lknee") (kp "lank") with
  | inl e => inl e
  | inr L =>
      match angle_rows kps (kp "rhip") (kp "rknee") (kp "rank") with
      | inl e => inl e
      | inr R => inr (L, R)
      end
  end.

Definition hip_angle_side (kps : list vec) (side : string)
    : exn + option R :=
  if String.eqb side "l"
  then angle_rows kps (kp "lsh") (kp "lhip") (kp "lank")
  else angle_rows kps (kp "rsh") (kp "rhip") (kp "rank").

(** The stabilizer's array read row by row. *)
Definition as_rows (l : EMAStabilizer.landmarks) : list vec :=
  map (fun p => [fst p; snd p]) l.

End Angles.

(** ** Vocabulary for statements about the stabilizer *)

(** A stored state, when there is one, has 17 rows. *)
Definition stabilizer_ok (self : EMAStabilizer.t) : Prop :=
  match EMAStabilizer.state self with
  | None => True
  | Some st => length st = 17%nat
  end.

(** ** The exercise registry and the controls of the main loop *)

(** The exception a dictionary access can raise. *)
Inductive key_exn : Type := KeyError.

Section MainLoop.
Import Ascii.

(** Python's [ord] on the characters of the key bindings. *)
Definition ord (c : ascii) : Z := Z.of_N (N_of_ascii c).

Definition RES_MODES : list (Z * Z) :=
  [(1920, 1080); (1280, 720); (960, 540); (640, 480)].

Variable Kps : Type.
Variable knee_angles : Kps -> option Q * option Q.
Variable hip_angle_side : Kps -> string -> option Q.

Definition EXER_REG
    : list (string * (string * (Kps -> RepCounter -> RepCounter))) :=
  [("squat"%string, ("Squat"%string, logic_squat knee_angles));
   ("sts"%string, ("Sit to Stand"%string, logic_sts knee_angles));
   ("leg_raise"%string,
    ("Leg Raise"%string, logic_leg_raise hip_angle_side))].

(** [EXER_REG[name]] *)
Definition EXER_REG_get (name : string)
    : key_exn + string * (Kps -> RepCounter -> RepCounter) :=
  match find (fun e => String.eqb (fst e) name) EXER_REG with
  | Some e => inr (snd e)
  | None => inl KeyError
  end.

(** What the loop carries from one frame to the next, as far as the
    controls are concerned. *)
Record Loop : Type := mkLoop {
  rc : RepCounter;
  recording : bool;
  show_help : bool;
  RES_IDX : Z
}.

(** The state before the first frame: [RepCounter(exercise="squat")],
    not recording, help shown, [RES_IDX = 1]. *)
Definition Loop_initial : Loop :=
  mkLoop (mkRepCounter "squat" 0 EmptyString 0 0) false true 1.

(** The part of the loop body that runs the exercise logic on the
    stabilized landmarks (absent when there are none) and looks up the
    exercise name for the display. *)
Definition frame_logic (kps : option Kps) (rc : RepCounter)
    : key_exn + RepCounter :=
  match
    match kps with
    | Some kps =>
        match EXER_REG_get (exercise rc) with
        | inr (_, logic_fn) => inr (logic_fn kps rc)
        | inl e => inl e
        end
    | None => inr rc
    end
  with
  | inr rc =>
      match EXER_REG_get (exercise rc) with
      | inr (ex_name, _) => inr rc
      | inl e => inl e
      end
  | inl e => inl e
  end.

(** The key controls; [None] leaves the loop. *)
Definition controls (k : Z) (st : Loop) : option Loop :=
  if (k =? ord "q") || (k =? 27) then None
  else if k =? ord "r"
  then Some (mkLoop (reset None (rc st)) (recording st) (show_help st)
               (RES_IDX st))
  else if k =? ord "v"
  then Some (mkLoop (rc st) (negb (recording st)) (show_help st)
               (RES_IDX st))
  else if k =? ord "h"
  then Some (mkLoop (rc st) (recording st) (negb (show_help st))
               (RES_IDX st))
  else if k =? ord "1"
  then Some (mkLoop (reset (Some "squat"%string) (rc st)) (recording st)
               (show_help st) (RES_IDX st))
  else if k =? ord "2"
  then Some (mkLoop (reset (Some "sts"%string) (rc st)) (recording st)
               (show_help st) (RES_IDX st))
  else if k =? ord "3"
  then Some (mkLoop (reset (Some "leg_raise"%string) (rc st)) (recording st)
               (show_help st) (RES_IDX st))
  else if (k =? ord "[") || (k =? ord "]")
  then Some (mkLoop (rc st) (recording st) (show_help st)
               (if k =? ord "["
                then (RES_IDX st - 1) mod Z.of_nat (length RES_MODES)
                else (RES_IDX st + 1) mod Z.of_nat (length RES_MODES)))
  else Some st.

(** The loop over the frames: each iteration has the frame's stabilized
    landmarks (if any) and the key read at its end. *)
Fixpoint main_loop (iters : list (option Kps * Z)) (st : Loop)
    : key_exn + Loop :=
  match iters with
  | [] => inr st
  | (kps, k) :: iters' =>
      match frame_logic kps (rc st) with
      | inl e => inl e
      | inr rc' =>
          let st := mkLoop rc' (recording st) (show_help st) (RES_IDX st) in
          match controls k st with
          | None => inr st
          | Some st' => main_loop iters' st'
          end
      end
  end.

End MainLoop.

Arguments EXER_REG {Kps} knee_angles hip_angle_side.
Arguments EXER_REG_get {Kps} knee_angles hip_angle_side name.
Arguments frame_logic {Kps} knee_angles hip_angle_side kps rc.
Arguments main_loop {Kps} knee_angles hip_angle_side iters st.

(** The exercise names of the registry. *)
Definition registered (name : string) : Prop :=
  name = "squat"%string \/ name = "sts"%string \/ name = "leg_raise"%string.

(** * Proofs *)

(** ** The counters are hysteresis machines *)

Section MachineFacts.

Variable Kps : Type.
Variable knee_angles : Kps -> option Q * option Q.
Variable hip_angle_side : Kps -> string -> option Q.


Lemma logic_squat_hyst (kps : Kps) (rc : RepCounter) :
  logic_squat knee_angles kps rc = hyst_step (squat_machine knee_angles) kps rc.
Proof.
  unfold logic_squat, hyst_step, squat_machine, knees_measured, knees_below,
    knees_above; cbn [measured leave_start leave_other start other
    count_leaving_start quality].
  destruct (knee_angles kps) as [[Lk|] [Rk|]]; reflexivity.
Qed.

Lemma logic_sts_hyst (kps : Kps) (rc : RepCounter) :
  logic_sts knee_angles kps rc = hyst_step (sts_machine knee_angles) kps rc.
Proof.
  unfold logic_sts, hyst_step, sts_machine, knees_measured, knees_below,
    knees_above; cbn [measured leave_start leave_other start other
    count_leaving_start quality].
  destruct (knee_angles kps) as [[Lk|] [Rk|]]; reflexivity.
Qed.

Lemma logic_leg_raise_hyst (kps : Kps) (rc : RepCounter) :
  logic_leg_raise hip_angle_side kps rc
  = hyst_step (leg_raise_machine hip_angle_side) kps rc.
Proof.
  unfold logic_leg_raise, hyst_step, leg_raise_machine, hips_measured,
    hips_any_up, hips_both_down; cbn [measured leave_start leave_other start
    other count_leaving_start quality].
  destruct (hip_angle_side kps "l"), (hip_angle_side kps "r"); reflexivity.
Qed.


End MachineFacts.

(** ** Field-wise facts about the counter updates *)

Lemma state_store_quality q rc : state (store_quality q rc) = state rc.
Proof. destruct q; reflexivity. Qed.

Lemma dwell_store_quality q rc : dwell (store_quality q rc) = dwell rc.
Proof. destruct q; reflexivity. Qed.

Lemma reps_store_quality q rc : reps (store_quality q rc) = reps rc.
Proof. destruct q; reflexivity. Qed.

Lemma run_snoc {F : Type} (logic : F -> RepCounter -> RepCounter) fs f rc :
  run logic (fs ++ [f]) rc = logic f (run logic fs rc).
Proof. unfold run. rewrite fold_left_app. reflexivity. Qed.

Lemma run_app {F : Type} (logic : F -> RepCounter -> RepCounter) fs gs rc :
  run logic (fs ++ gs) rc = run logic gs (run logic fs rc).
Proof. unfold run. apply fold_left_app. Qed.

Lemma run_ext {F : Type} (l1 l2 : F -> RepCounter -> RepCounter) :
  (forall f rc, l1 f rc = l2 f rc) ->
  forall fs rc, run l1 fs rc = run l2 fs rc.
Proof.
  intros E fs. induction fs as [|f fs IH]; intro rc; [reflexivity|].
  cbn. rewrite E. apply IH.
Qed.

(** ** The dwell invariant of a hysteresis machine *)

Section HysteresisFacts.

Context {F : Type} (M : hysteresis F).
Hypothesis start_named : start M <> EmptyString.
Hypothesis other_named : other M <> EmptyString.
Hypothesis phases_differ : start M <> other M.

Lemma trail_zero (c : F -> bool) vs : trail c vs 0.
Proof.
  split; [unfold MIN_DWELL; lia|].
  exists vs, []. rewrite app_nil_r. repeat split; constructor.
Qed.

Lemma trail_snoc (c : F -> bool) vs d f :
  trail c vs d -> c f = true -> d + 1 < MIN_DWELL ->
  trail c (vs ++ [f]) (d + 1).
Proof.
  intros [Hd (pre & suf & -> & Hlen & Hall)] Hc Hlt.
  split; [lia|].
  exists pre, (suf ++ [f]). rewrite app_assoc. repeat split.
  - rewrite length_app. cbn. lia.
  - apply Forall_app. split; [assumption|].
    constructor; [assumption|constructor].
Qed.

Lemma trail_full (c : F -> bool) vs d f :
  trail c vs d -> c f = true -> MIN_DWELL <= d + 1 ->
  last3_hold c (vs ++ [f]).
Proof.
  intros [Hd (pre & suf & -> & Hlen & Hall)] Hc Hge.
  unfold MIN_DWELL in *.
  destruct suf as [|f1 [|f2 [|f3 suf]]]; cbn in Hlen; try lia.
  exists pre, f1, f2, f;
    inversion Hall as [|? ? H1 Hall']; inversion Hall' as [|? ? H2 ?]; subst.
  rewrite <- app_assoc. cbn. auto.
Qed.

Lemma filter_snoc (p : F -> bool) fs f :
  filter p (fs ++ [f]) = if p f then filter p fs ++ [f] else filter p fs.
Proof.
  rewrite filter_app. cbn. destruct (p f); [reflexivity|apply app_nil_r].
Qed.

Lemma tracked_step fs f rc :
  tracked M fs rc -> tracked M (fs ++ [f]) (hyst_step M f rc).
Proof.
  unfold tracked, hyst_step. rewrite filter_snoc.
  destruct (measured M f) eqn:Hm; [|tauto].
  rewrite state_store_quality, dwell_store_quality.
  intros [[Hs Hd] | [[Hs Ht] | [Hs Ht]]].
  - rewrite Hs. cbn. right. left. split; [reflexivity|apply trail_zero].
  - rewrite Hs.
    destruct (String.eqb_spec (start M) EmptyString); [contradiction|].
    rewrite String.eqb_refl. cbn [set_dwell dwell].
    destruct (leave_start M f) eqn:Hc; cbn [andb].
    + destruct (MIN_DWELL <=? dwell rc + 1) eqn:Hge.
      * cbn. right. right. split; [reflexivity|apply trail_zero].
      * cbn. right. left. split; [assumption|].
        apply trail_snoc; [assumption..|]. apply Z.leb_gt in Hge. lia.
    + cbn. right. left. split; [assumption|apply trail_zero].
  - rewrite Hs.
    destruct (String.eqb_spec (other M) EmptyString); [contradiction|].
    destruct (String.eqb_spec (other M) (start M)); [congruence|].
    rewrite String.eqb_refl. cbn [set_dwell dwell].
    destruct (leave_other M f) eqn:Hc; cbn [andb].
    + destruct (MIN_DWELL <=? dwell rc + 1) eqn:Hge.
      * cbn. right. left. split; [reflexivity|apply trail_zero].
      * cbn. right. right. split; [assumption|].
        apply trail_snoc; [assumption..|]. apply Z.leb_gt in Hge. lia.
    + cbn. right. right. split; [assumption|apply trail_zero].
Qed.

Lemma tracked_run fs rc :
  tracked M [] rc -> tracked M fs (run (hyst_step M) fs rc).
Proof.
  intro H0. induction fs as [|f fs IH] using rev_ind; [exact H0|].
  rewrite run_snoc. apply tracked_step, IH.
Qed.

Lemma tracked_reset ex rc : tracked M [] (reset ex rc).
Proof. left. split; reflexivity. Qed.

(** Leaving the starting phase needs three measured frames in a row on
    which its leaving condition held. *)
Lemma leave_start_needs_dwell fs f rc :
  tracked M fs rc ->
  state rc = start M -> state (hyst_step M f rc) = other M ->
  last3_hold (leave_start M) (filter (measured M) (fs ++ [f])).
Proof.
  unfold tracked, hyst_step. rewrite filter_snoc.
  intros Ht Hs. destruct (measured M f) eqn:Hm; [|congruence].
  rewrite state_store_quality, Hs.
  destruct (String.eqb_spec (start M) EmptyString); [contradiction|].
  rewrite String.eqb_refl. cbn [set_dwell dwell].
  destruct Ht as [[Hs' _] | [[_ Ht] | [Hs' _]]]; try congruence.
  destruct (leave_start M f) eqn:Hc; cbn [andb]; [|cbn; congruence].
  destruct (MIN_DWELL <=? dwell rc + 1) eqn:Hge; [|cbn; congruence].
  intros _. apply Z.leb_le in Hge. eapply trail_full; eassumption.
Qed.

(** The same for leaving the other phase. *)
Lemma leave_other_needs_dwell fs f rc :
  tracked M fs rc ->
  state rc = other M -> state (hyst_step M f rc) = start M ->
  last3_hold (leave_other M) (filter (measured M) (fs ++ [f])).
Proof.
  unfold tracked, hyst_step. rewrite filter_snoc.
  intros Ht Hs. destruct (measured M f) eqn:Hm; [|congruence].
  rewrite state_store_quality, Hs.
  destruct (String.eqb_spec (other M) EmptyString); [contradiction|].
  destruct (String.eqb_spec (other M) (start M)); [congruence|].
  rewrite String.eqb_refl. cbn [set_dwell dwell].
  destruct Ht as [[Hs' _] | [[Hs' _] | [_ Ht]]]; try congruence.
  destruct (leave_other M f) eqn:Hc; cbn [andb]; [|cbn; congruence].
  destruct (MIN_DWELL <=? dwell rc + 1) eqn:Hge; [|cbn; congruence].
  intros _. apply Z.leb_le in Hge. eapply trail_full; eassumption.
Qed.

(** A measured frame on which the leaving condition of the current phase
    fails puts the dwell count back to zero. *)
Lemma failed_condition_clears_dwell f rc :
  measured M f = true ->
  (state rc = start M /\ leave_start M f = false) \/
  (state rc = other M /\ leave_other M f = false) ->
  dwell (hyst_step M f rc) = 0 /\ state (hyst_step M f rc) = state rc.
Proof.
  unfold hyst_step. intros -> [[Hs Hc] | [Hs Hc]];
    rewrite dwell_store_quality, state_store_quality, Hs, Hc.
  - destruct (String.eqb_spec (start M) EmptyString); [contradiction|].
    rewrite String.eqb_refl. cbn. auto.
  - destruct (String.eqb_spec (other M) EmptyString); [contradiction|].
    destruct (String.eqb_spec (other M) (start M)); [congruence|].
    rewrite String.eqb_refl. cbn. auto.
Qed.

End HysteresisFacts.

(** ** Comparisons, clamping and rounding over [Q] *)

Lemma Qltb_lt (x y : Q) : Qltb x y = true <-> (x < y)%Q.
Proof.
  unfold Qltb. rewrite negb_true_iff, <- not_true_iff_false, Qle_bool_iff.
  split; [apply Qnot_le_lt | apply Qlt_not_le].
Qed.

Lemma Qltb_ge (x y : Q) : Qltb x y = false <-> (y <= x)%Q.
Proof.
  unfold Qltb. rewrite negb_false_iff. apply Qle_bool_iff.
Qed.

Lemma Qltb_spec (x y : Q) : reflect (x < y)%Q (Qltb x y).
Proof.
  destruct (Qltb x y) eqn:E; constructor.
  - apply Qltb_lt, E.
  - apply Qle_not_lt, Qltb_ge, E.
Qed.

Lemma _clamp01_mono (x y : Q) : (x <= y)%Q -> (_clamp01 x <= _clamp01 y)%Q.
Proof.
  intro H. unfold _clamp01, py_max, py_min.
  destruct (Qltb_spec x 1), (Qltb_spec y 1);
    repeat match goal with
           | |- context [Qltb ?a ?b] => destruct (Qltb_spec a b)
           end; Lqa.lra.
Qed.

Lemma _clamp01_range (x : Q) : (0 <= _clamp01 x <= 1)%Q.
Proof.
  unfold _clamp01, py_max, py_min.
  destruct (Qltb_spec x 1);
    repeat match goal with
           | |- context [Qltb ?a ?b] => destruct (Qltb_spec a b)
           end; Lqa.lra.
Qed.

Lemma py_round_mono (x y : Q) : (x <= y)%Q -> py_round x <= py_round y.
Proof.
  intro H. unfold py_round.
  pose proof (Qfloor_resp_le x y H) as Hf.
  pose proof (Qfloor_le x) as Hx1. pose proof (Qlt_floor x) as Hx2.
  pose proof (Qfloor_le y) as Hy1. pose proof (Qlt_floor y) as Hy2.
  rewrite inject_Z_plus in Hx2, Hy2.
  destruct (Z.eq_dec (Qfloor x) (Qfloor y)) as [E|NE].
  - rewrite <- E in *.
    set (f := Qfloor x) in *. change (inject_Z 1) with 1%Q in *.
    repeat match goal with
           | |- context [Qltb ?a ?b] => destruct (Qltb_spec a b)
           end; try lia; try Lqa.lra; destruct (Z.even f); lia.
  - assert (Qfloor x + 1 <= Qfloor y) by lia.
    repeat match goal with
           | |- context [if ?c then _ else _] => destruct c
           end; lia.
Qed.

Lemma Qdiv_le_mono (x y c : Q) : (0 < c)%Q -> (x <= y)%Q -> (x / c <= y / c)%Q.
Proof.
  intros Hc H. unfold Qdiv. apply Qmult_le_compat_r; [assumption|].
  apply Qinv_le_0_compat, Qlt_le_weak, Hc.
Qed.

Lemma knee_score_antitone (a b : Q) :
  (a <= b)%Q -> (knee_score b <= knee_score a)%Q.
Proof.
  intro H. unfold knee_score. apply _clamp01_mono, Qdiv_le_mono; Lqa.lra.
Qed.

(** ** Dwell threshold of the three counters *)

Section CounterFacts.

Variable Kps : Type.
Variable knee_angles : Kps -> option Q * option Q.
Variable hip_angle_side : Kps -> string -> option Q.

Lemma dwell_guarded_hyst (M : hysteresis Kps) logic :
  start M <> EmptyString -> other M <> EmptyString -> start M <> other M ->
  (forall f rc, logic f rc = hyst_step M f rc) ->
  dwell_guarded logic M.
Proof.
  intros H1 H2 H3 E fs f ex rc0. cbn zeta.
  rewrite (run_ext _ _ E), E.
  pose proof (tracked_run M H1 H2 H3 fs _ (tracked_reset M ex rc0)) as Ht.
  split; intros Hs Hs'.
  - eapply leave_start_needs_dwell; eassumption.
  - eapply leave_other_needs_dwell; eassumption.
Qed.

Lemma dwell_cleared_hyst (M : hysteresis Kps) logic :
  start M <> EmptyString -> other M <> EmptyString -> start M <> other M ->
  (forall f rc, logic f rc = hyst_step M f rc) ->
  dwell_cleared logic M.
Proof.
  intros H1 H2 H3 E f rc Hm Hc. rewrite E.
  apply failed_condition_clears_dwell; assumption.
Qed.

Lemma knees_above_not_below (kps : Kps) :
  knees_above knee_angles SQUAT_UP_MIN kps = true ->
  knees_below knee_angles SQUAT_DOWN_MAX kps = false.
Proof.
  unfold knees_above, knees_below, SQUAT_UP_MIN, SQUAT_DOWN_MAX.
  destruct (knee_angles kps) as [[Lk|] [Rk|]]; try discriminate.
  rewrite andb_true_iff, 2 Qltb_lt. intros [HL HR].
  destruct (Qltb_spec Lk 120); [Lqa.lra|reflexivity].
Qed.

(** A frame with both knees above 165 degrees keeps an idle squat counter
    idle and leaves its dwell count at zero. *)
Lemma squat_idle_above (kps : Kps) (rc : RepCounter) :
  squat_idle rc ->
  knees_above knee_angles SQUAT_UP_MIN kps = true ->
  squat_idle (logic_squat knee_angles kps rc) /\
  dwell (logic_squat knee_angles kps rc) = 0.
Proof.
  intros [Hr Hs] Hup. pose proof (knees_above_not_below kps Hup) as Hdn.
  unfold logic_squat, squat_idle. unfold knees_above in Hup.
  unfold knees_below in Hdn.
  destruct (knee_angles kps) as [[Lk|] [Rk|]]; try discriminate.
  rewrite reps_store_quality, state_store_quality, dwell_store_quality.
  rewrite Hdn. destruct Hs as [Hs | Hs]; rewrite Hs; cbn; rewrite ?Hs; auto.
Qed.

(** Any frame keeps an idle squat counter idle as long as one more dwell
    step stays below the threshold. *)
Lemma squat_idle_short (kps : Kps) (rc : RepCounter) (d : Z) :
  squat_idle rc -> 0 <= d -> dwell rc <= d -> d + 1 < MIN_DWELL ->
  squat_idle (logic_squat knee_angles kps rc) /\
  dwell (logic_squat knee_angles kps rc) <= d + 1.
Proof.
  intros [Hr Hs] Hd0 Hd Hlt. unfold logic_squat, squat_idle.
  destruct (knee_angles kps) as [[Lk|] [Rk|]];
    try (split; [split; assumption | lia]).
  rewrite reps_store_quality, state_store_quality, dwell_store_quality.
  unfold MIN_DWELL in *.
  destruct Hs as [Hs | Hs]; rewrite Hs; cbn [String.eqb Ascii.eqb Bool.eqb].
  - cbn. repeat split; auto; lia.
  - destruct (Qltb Lk SQUAT_DOWN_MAX && Qltb Rk SQUAT_DOWN_MAX); cbn [andb].
    + cbn [set_dwell dwell].
      destruct (Z.leb_spec 3 (dwell rc + 1)); [lia|].
      cbn. rewrite Hs. repeat split; auto; lia.
    + cbn. rewrite Hs. repeat split; auto; lia.
Qed.

Lemma squat_idle_run_above (fs : list Kps) (rc : RepCounter) :
  squat_idle rc ->
  Forall (fun kps => knees_above knee_angles SQUAT_UP_MIN kps = true) fs ->
  squat_idle (run (logic_squat knee_angles) fs rc) /\
  (dwell rc = 0 -> dwell (run (logic_squat knee_angles) fs rc) = 0).
Proof.
  intros Hi Hall. revert rc Hi.
  induction Hall as [|f fs Hf Hall IH]; intros rc Hi; [auto|].
  cbn. destruct (squat_idle_above f rc Hi Hf) as [Hi' Hd'].
  destruct (IH _ Hi') as [IH1 IH2]. auto.
Qed.

(** A dip of two frames between standing frames counts nothing. *)
Lemma squat_short_dip (pre post : list Kps) (d1 d2 : Kps)
    (ex : option string) (rc0 : RepCounter) :
  Forall (fun kps => knees_above knee_angles SQUAT_UP_MIN kps = true) pre ->
  Forall (fun kps => knees_above knee_angles SQUAT_UP_MIN kps = true) post ->
  reps (run (logic_squat knee_angles) (pre ++ [d1; d2] ++ post)
          (reset ex rc0)) = 0.
Proof.
  intros Hpre Hpost. rewrite 2 run_app.
  assert (H0 : squat_idle (reset ex rc0))
    by (split; [reflexivity|left; reflexivity]).
  destruct (squat_idle_run_above pre _ H0 Hpre) as [H1 D1].
  specialize (D1 eq_refl).
  set (rc1 := run (logic_squat knee_angles) pre (reset ex rc0)) in *.
  cbn [run fold_left].
  destruct (squat_idle_short d1 rc1 0 H1) as [H2 D2];
    [lia | lia | unfold MIN_DWELL; lia |].
  destruct (squat_idle_short d2 _ 1 H2) as [H3 D3];
    [lia | lia | unfold MIN_DWELL; lia |].
  destruct (squat_idle_run_above post _ H3 Hpost) as [H4 _].
  apply H4.
Qed.

End CounterFacts.

(** ** Facts about the angle engine *)

Section AngleFacts.
Local Open Scope R_scope.

Lemma Rltb_spec (x y : R) : reflect (x < y) (Rltb x y).
Proof. unfold Rltb. destruct (Rlt_dec x y); constructor; assumption. Qed.


Lemma Rltb_false (x y : R) : y <= x -> Rltb x y = false.
Proof. intro H. destruct (Rltb_spec x y); [lra|reflexivity]. Qed.

Lemma Rleb_spec (x y : R) : reflect (x <= y) (Rleb x y).
Proof. unfold Rleb. destruct (Rle_dec x y); constructor; assumption. Qed.

Lemma _valid_point_positive2 (p : point) :
  _valid_point p = true <-> exists v, p = Some v /\ positive2 v.
Proof.
  unfold _valid_point, positive2. split.
  - destruct p as [[|x [|y [|z v]]]|]; try discriminate.
    intro H. apply andb_true_iff in H as [Hx Hy].
    destruct (Rltb_spec 0 x), (Rltb_spec 0 y); try discriminate.
    exists [x; y]. split; [reflexivity|]. exists x, y. auto.
  - intros (v & -> & x & y & -> & Hx & Hy).
    destruct (Rltb_spec 0 x), (Rltb_spec 0 y); try contradiction.
    reflexivity.
Qed.

Lemma degrees_acos_range (x : R) : 0 <= degrees (acos x) <= 180.
Proof.
  unfold degrees. pose proof (acos_bound x) as [H0 H1].
  pose proof PI_RGT_0 as Hpi.
  assert (Hq : 0 < 180 / PI) by (apply Rdiv_lt_0_compat; lra).
  split.
  - apply Rmult_le_pos; lra.
  - replace 180 with (PI * (180 / PI)) at 2 by (field; lra).
    apply Rmult_le_compat_r; lra.
Qed.

(** What [angle_3pt] returns, in exact arithmetic. *)
Lemma angle_3pt_spec (a b c : point) :
  (well_posed false a b c ->
   exists theta, angle_3pt a b c = Some theta /\ 0 <= theta <= 180) /\
  (~ well_posed false a b c -> angle_3pt a b c = None).
Proof.
  unfold angle_3pt.
  destruct (_valid_point a) eqn:Ha; cycle 1.
  { cbn. split; [|reflexivity].
    intros (va & vb & vc & -> & -> & -> & Pa & _).
    assert (_valid_point (Some va) = true)
      by (apply _valid_point_positive2; eauto).
    congruence. }
  destruct (_valid_point b) eqn:Hb; cycle 1.
  { cbn. split; [|reflexivity].
    intros (va & vb & vc & -> & -> & -> & _ & Pb & _).
    assert (_valid_point (Some vb) = true)
      by (apply _valid_point_positive2; eauto).
    congruence. }
  destruct (_valid_point c) eqn:Hc; cycle 1.
  { cbn. split; [|reflexivity].
    intros (va & vb & vc & -> & -> & -> & _ & _ & Pc & _).
    assert (_valid_point (Some vc) = true)
      by (apply _valid_point_positive2; eauto).
    congruence. }
  cbn [andb negb].
  apply _valid_point_positive2 in Ha as (va & -> & Pa).
  apply _valid_point_positive2 in Hb as (vb & -> & Pb).
  apply _valid_point_positive2 in Hc as (vc & -> & Pc).
  destruct (Rltb_spec (norm (vsub va vb)) NORM_EPS) as [L1|G1]; cbn [orb].
  { split; [|reflexivity].
    intros (? & ? & ? & [= <-] & [= <-] & [= <-] & _ & _ & _ & H1 & _). lra. }
  destruct (Rltb_spec (norm (vsub vc vb)) NORM_EPS) as [L2|G2].
  { split; [|reflexivity].
    intros (? & ? & ? & [= <-] & [= <-] & [= <-] & _ & _ & _ & _ & H2). lra. }
  split.
  - intros _. eexists. split; [reflexivity|]. apply degrees_acos_range.
  - intros Hn. exfalso. apply Hn.
    exists va, vb, vc. repeat split; auto; lra.
Qed.

End AngleFacts.

(** ** Facts about the stabilizer *)

Lemma length_set_nth {A : Type} (l : list A) (i : nat) (v : A) :
  length (set_nth l i v) = length l.
Proof.
  revert i. induction l as [|x l IH]; intros [|i]; cbn; auto.
Qed.

Lemma nth_error_set_nth {A : Type} (l : list A) (i j : nat) (v : A) :
  (i < length l)%nat ->
  nth_error (set_nth l i v) j = if Nat.eqb j i then Some v else nth_error l j.
Proof.
  revert i j. induction l as [|x l IH]; intros [|i] [|j] H; cbn in *;
    try lia; try reflexivity.
  apply IH. lia.
Qed.

Lemma nth_error_combine {A B : Type} (l : list A) (l' : list B) (n : nat) :
  nth_error (combine l l') n =
  match nth_error l n, nth_error l' n with
  | Some a, Some b => Some (a, b)
  | _, _ => None
  end.
Proof.
  revert l' n. induction l as [|a l IH]; intros [|b l'] [|n]; cbn;
    try reflexivity.
  - destruct (nth_error l n); reflexivity.
  - apply IH.
Qed.

Section StabilizerFacts.
Import EMAStabilizer.
Local Open Scope R_scope.

Lemma nth_error_smoothed (self : t) (st kps : landmarks) (j : nat) :
  nth_error (smoothed self st kps) j =
  match nth_error st j, nth_error kps j with
  | Some prev, Some cur => Some (smooth self prev cur)
  | _, _ => None
  end.
Proof.
  unfold smoothed. rewrite nth_error_map, nth_error_combine.
  destruct (nth_error st j), (nth_error kps j); reflexivity.
Qed.

Lemma length_smoothed (self : t) (st kps : landmarks) :
  length kps = length st -> length (smoothed self st kps) = length st.
Proof.
  intro H. unfold smoothed. rewrite length_map, length_combine. lia.
Qed.

(** After [n] passes the first [n] joints hold their new values and the
    others still hold the stored ones. *)
Lemma loop_prefix (self : t) (st kps : landmarks) (n : nat) :
  length kps = length st -> (n <= length st)%nat ->
  exists out,
    fold_left (loop_body self st kps) (seq 0 n) (Some st) = Some out /\
    length out = length st /\
    forall j, nth_error out j =
              if Nat.ltb j n then nth_error (smoothed self st kps) j
              else nth_error st j.
Proof.
  intros Hlen. induction n as [|n IH]; intro Hn.
  - exists st. cbn. auto.
  - destruct IH as (out & Hout & Hl & Hnth); [lia|].
    rewrite seq_S, fold_left_app, Hout. cbn [fold_left loop_body Nat.add].
    destruct (nth_error kps n) as [cur|] eqn:Hk;
      [|apply nth_error_None in Hk; lia].
    destruct (nth_error st n) as [prev|] eqn:Hs;
      [|apply nth_error_None in Hs; lia].
    eexists. split; [reflexivity|]. split; [rewrite length_set_nth; exact Hl|].
    intro j. rewrite nth_error_set_nth by lia.
    destruct (Nat.eqb_spec j n) as [->|Hne].
    + rewrite (proj2 (Nat.ltb_lt n (S n))) by lia.
      rewrite nth_error_smoothed, Hs, Hk. reflexivity.
    + rewrite Hnth.
      destruct (Nat.ltb_spec j n), (Nat.ltb_spec j (S n)); try lia;
        reflexivity.
Qed.

Lemma loop_smoothed (self : t) (st kps : landmarks) :
  length kps = length st ->
  fold_left (loop_body self st kps) (seq 0 (length st)) (Some st)
  = Some (smoothed self st kps).
Proof.
  intro Hlen.
  destruct (loop_prefix self st kps (length st) Hlen (le_n _))
    as (out & -> & Hl & Hnth).
  f_equal. apply nth_error_ext. intro j. rewrite Hnth.
  destruct (Nat.ltb_spec j (length st)) as [|Hge]; [reflexivity|].
  symmetry. transitivity (@None landmark).
  - apply nth_error_None. rewrite length_smoothed by assumption. exact Hge.
  - symmetry. apply nth_error_None. exact Hge.
Qed.

Lemma length_mask_low (kps : landmarks) (m : list bool) :
  length m = length kps -> length (mask_low kps m) = length kps.
Proof.
  revert m. induction kps as [|p kps IH]; intros [|g m] H; cbn in *;
    try lia. rewrite IH; lia.
Qed.

Lemma length_masked (kps : landmarks) (conf : list R) :
  length conf = length kps -> length (masked kps conf) = length kps.
Proof.
  intro H. unfold masked. apply length_mask_low. rewrite length_map. exact H.
Qed.

Lemma nth_error_masked (kps : landmarks) (conf : list R) (j : nat) :
  nth_error (masked kps conf) j =
  match nth_error kps j, nth_error conf j with
  | Some p, Some c => Some (if Rleb KEYPT_MIN_CONF c then p else sentinel)
  | _, _ => None
  end.
Proof.
  unfold masked. revert conf j.
  induction kps as [|p kps IH]; intros [|c conf] [|j]; cbn; try reflexivity.
  - destruct (nth_error kps j); reflexivity.
  - apply IH.
Qed.


(** The first well-formed update stores and returns the masked input. *)
Lemma update_first (self : t) (kps : landmarks) (conf : list R) :
  state self = None -> length kps = 17%nat -> length conf = 17%nat ->
  update self (Some kps) (Some conf)
  = (inr (Some (masked kps conf)), with_state self (masked kps conf)).
Proof.
  intros Hs Hk Hc. unfold update. rewrite length_map, Hk, Hc, Hs.
  reflexivity.
Qed.

(** A later well-formed update stores and returns the smoothed joints. *)
Lemma update_next (self : t) (st kps : landmarks) (conf : list R) :
  state self = Some st -> length st = 17%nat ->
  length kps = 17%nat -> length conf = 17%nat ->
  update self (Some kps) (Some conf)
  = (inr (Some (smoothed self st (masked kps conf))),
     with_state self (smoothed self st (masked kps conf))).
Proof.
  intros Hs Hl Hk Hc. unfold update. rewrite length_map, Hk, Hc, Hs.
  cbn [Nat.eqb Nat.ltb Nat.leb negb orb].
  fold (masked kps conf). rewrite <- Hl at 1.
  rewrite loop_smoothed; [reflexivity|].
  rewrite length_masked; lia.
Qed.

Lemma invalid_sentinel : invalid sentinel = true.
Proof.
  unfold invalid, sentinel. cbn [fst snd].
  destruct (Rleb_spec (-1) 0); [reflexivity|lra].
Qed.

Lemma smooth_invalid_current (self : t) (prev cur : landmark) :
  invalid cur = true -> smooth self prev cur = sentinel.
Proof. unfold smooth. intros ->. reflexivity. Qed.

Lemma smooth_after_invalid (self : t) (prev cur : landmark) :
  invalid cur = false -> invalid prev = true -> smooth self prev cur = cur.
Proof. unfold smooth. intros -> ->. reflexivity. Qed.


End StabilizerFacts.

(** ** Facts about the subject selector *)

Section SelectorFacts.
Local Open Scope R_scope.


Lemma py_maxR_r (a b : R) : a < b -> py_maxR a b = b.
Proof.
  intro H. unfold py_maxR. destruct (Rltb_spec a b); [reflexivity|lra].
Qed.


Lemma py_minR_r (a b : R) : b < a -> py_minR a b = b.
Proof.
  intro H. unfold py_minR. destruct (Rltb_spec b a); [reflexivity|lra].
Qed.

Lemma py_maxR_bounds (a b : R) : a <= py_maxR a b /\ b <= py_maxR a b.
Proof. unfold py_maxR. destruct (Rltb_spec a b); lra. Qed.

Lemma py_maxR_cases (a b : R) :
  (b <= a /\ py_maxR a b = a) \/ (a < b /\ py_maxR a b = b).
Proof. unfold py_maxR. destruct (Rltb_spec a b); [right|left]; lra. Qed.

Lemma py_minR_bounds (a b : R) : py_minR a b <= a /\ py_minR a b <= b.
Proof. unfold py_minR. destruct (Rltb_spec b a); lra. Qed.

Lemma _bbox_center_bonus_nonneg (bb : box) (W H : Z) :
  0 <= _bbox_center_bonus bb W H.
Proof.
  destruct bb as [[[x1 y1] x2] y2]. unfold _bbox_center_bonus.
  apply py_maxR_bounds.
Qed.

(** The overlap of two boxes is at most the area of either, so the
    denominator of [_iou] is positive and the ratio lies in [0, 1). *)
Lemma _iou_range (a b : option box) : 0 <= _iou a b < 1.
Proof.
  destruct a as [[[[ax1 ay1] ax2] ay2]|], b as [[[[bx1 by1] bx2] by2]|];
    cbn [_iou]; try lra.
  pose proof (py_maxR_bounds ax1 bx1) as [Hx1 Hx1'].
  pose proof (py_maxR_bounds ay1 by1) as [Hy1 Hy1'].
  pose proof (py_minR_bounds ax2 bx2) as [Hx2 Hx2'].
  pose proof (py_minR_bounds ay2 by2) as [Hy2 Hy2'].
  pose proof (py_maxR_cases 0 (py_minR ax2 bx2 - py_maxR ax1 bx1)) as Cw.
  pose proof (py_maxR_cases 0 (py_minR ay2 by2 - py_maxR ay1 by1)) as Ch.
  pose proof (py_maxR_bounds 0 ((ax2 - ax1) * (ay2 - ay1))) as [HA0 HA1].
  pose proof (py_maxR_bounds 0 ((bx2 - bx1) * (by2 - by1))) as [HB0 HB1].
  set (ix1 := py_maxR ax1 bx1) in *. set (iy1 := py_maxR ay1 by1) in *.
  set (ix2 := py_minR ax2 bx2) in *. set (iy2 := py_minR ay2 by2) in *.
  set (iw := py_maxR 0 (ix2 - ix1)) in *.
  set (ih := py_maxR 0 (iy2 - iy1)) in *.
  set (areaA := py_maxR 0 ((ax2 - ax1) * (ay2 - ay1))) in *.
  set (areaB := py_maxR 0 ((bx2 - bx1) * (by2 - by1))) in *.
  clearbody ix1 iy1 ix2 iy2 iw ih areaA areaB.
  assert (Hiw : 0 <= iw) by (destruct Cw as [[? ?]|[? ?]]; lra).
  assert (Hih : 0 <= ih) by (destruct Ch as [[? ?]|[? ?]]; lra).
  assert (Hinter : 0 <= iw * ih) by (apply Rmult_le_pos; assumption).
  assert (HA : iw * ih <= areaA).
  { destruct Cw as [[_ Ew]|[Hw Ew]]; rewrite Ew; [lra|].
    destruct Ch as [[_ Eh]|[Hh Eh]]; rewrite Eh; [lra|].
    apply Rle_trans with ((ax2 - ax1) * (ay2 - ay1)); [|assumption].
    apply Rmult_le_compat; lra. }
  assert (HB : iw * ih <= areaB).
  { destruct Cw as [[_ Ew]|[Hw Ew]]; rewrite Ew; [lra|].
    destruct Ch as [[_ Eh]|[Hh Eh]]; rewrite Eh; [lra|].
    apply Rle_trans with ((bx2 - bx1) * (by2 - by1)); [|assumption].
    apply Rmult_le_compat; lra. }
  assert (Hd : 0 < areaA + areaB - iw * ih + 1 / 1000000) by lra.
  split.
  - apply Rmult_le_pos; [assumption|].
    apply Rlt_le, Rinv_0_lt_compat, Hd.
  - apply (Rmult_lt_reg_r (areaA + areaB - iw * ih + 1 / 1000000));
      [assumption|].
    unfold Rdiv. rewrite Rmult_assoc, Rinv_l by lra. lra.
Qed.

Lemma nanmean_nonneg (l : list R) :
  Forall (fun c => 0 <= c) l -> 0 <= nanmean l.
Proof.
  intro H. unfold nanmean.
  assert (Hs : 0 <= fold_right Rplus 0 l).
  { induction H as [|c l Hc _ IH]; cbn; lra. }
  destruct l as [|c l].
  - cbn. rewrite Rdiv_0_l. lra.
  - apply Rmult_le_pos; [assumption|].
    apply Rlt_le, Rinv_0_lt_compat, lt_0_INR. cbn. lia.
Qed.

Lemma candidate_score_nonneg (W H : Z) (prev_bb : option box) (bb : box)
    (cf : list R) :
  Forall (fun c => 0 <= c) cf -> 0 <= candidate_score W H prev_bb bb cf.
Proof.
  intro Hc. unfold candidate_score.
  pose proof (nanmean_nonneg cf Hc).
  pose proof (_bbox_center_bonus_nonneg bb W H).
  pose proof (_iou_range prev_bb (Some bb)). lra.
Qed.

Lemma nth_error_scores (W H : Z) (prev_bb : option box)
    (kconf : list (list R)) (bxs : list box) (j : nat) :
  nth_error (scores W H prev_bb kconf bxs) j =
  match nth_error bxs j, nth_error kconf j with
  | Some bb, Some cf => Some (candidate_score W H prev_bb bb cf)
  | _, _ => None
  end.
Proof.
  unfold scores. rewrite nth_error_map, nth_error_combine.
  destruct (nth_error bxs j), (nth_error kconf j); reflexivity.
Qed.

(** The loop keeps the first candidate of the highest score seen. *)
Lemma select_loop (W H : Z) (prev_bb : option box) (kconf : list (list R))
    (bxs : list box) (n : nat) :
  (n <= length bxs)%nat -> (n <= length kconf)%nat ->
  exists acc,
    fold_left (select_step W H prev_bb kconf bxs) (seq 0 n)
      (inr (None, - 1000000000)) = inr acc /\
    best_so_far (scores W H prev_bb kconf bxs) n acc.
Proof.
  induction n as [|n IH]; intros Hb Hk.
  - exists (None, - 1000000000). split; [reflexivity|].
    split; [reflexivity|]. intros j s Hj. lia.
  - destruct IH as ([bi bs] & Hf & Hinv); [lia|lia|].
    rewrite seq_S, fold_left_app, Hf. cbn [fold_left select_step Nat.add].
    destruct (nth_error bxs n) as [bb|] eqn:Eb;
      [|apply nth_error_None in Eb; lia].
    destruct (nth_error kconf n) as [cf|] eqn:Ek;
      [|apply nth_error_None in Ek; lia].
    set (sc := candidate_score W H prev_bb bb cf).
    assert (Hn : nth_error (scores W H prev_bb kconf bxs) n = Some sc)
      by (rewrite nth_error_scores, Eb, Ek; reflexivity).
    assert (Hprev : forall j s, (j < n)%nat ->
              nth_error (scores W H prev_bb kconf bxs) j = Some s -> s <= bs).
    { destruct bi; cbn in Hinv; [apply Hinv | apply Hinv]. }
    assert (Hlow : - 1000000000 <= bs).
    { destruct bi; cbn in Hinv; [|destruct Hinv as [-> _]; lra].
      destruct Hinv as (_ & _ & ? & _). lra. }
    destruct (Rltb_spec bs sc) as [Hlt|Hge].
    + exists (Some n, sc). split; [reflexivity|]. cbn.
      split; [lia|]. split; [exact Hn|]. split; [lra|]. split.
      * intros j s Hj Hs. destruct (Nat.eq_dec j n) as [->|Hne].
        -- rewrite Hn in Hs. injection Hs as <-. lra.
        -- assert (s <= bs) by (apply (Hprev j); [lia|assumption]). lra.
      * intros j s Hj Hs.
        assert (s <= bs) by (apply (Hprev j); assumption). lra.
    + exists (bi, bs). split; [reflexivity|].
      assert (Hall : forall j s, (j < S n)%nat ->
                nth_error (scores W H prev_bb kconf bxs) j = Some s ->
                s <= bs).
      { intros j s Hj Hs. destruct (Nat.eq_dec j n) as [->|Hne].
        - rewrite Hn in Hs. injection Hs as <-. lra.
        - apply (Hprev j); [lia|assumption]. }
      destruct bi as [i|]; cbn in Hinv |- *.
      * destruct Hinv as (Hi & Hsi & Hgt & _ & Hstrict).
        repeat split; auto.
      * destruct Hinv as [Hbs _]. split; assumption.
Qed.

Lemma length_scores (W H : Z) (prev_bb : option box)
    (kconf : list (list R)) (bxs : list box) :
  length kconf = length bxs ->
  length (scores W H prev_bb kconf bxs) = length bxs.
Proof.
  intro E. unfold scores. rewrite length_map, length_combine. lia.
Qed.

(** What [pick_best_person] returns on a result with [n] persons. *)
Lemma pick_best_person_loop (kxy : list (list (R * R)))
    (kconf : list (list R)) (bxs : list box) (W H : Z)
    (prev_bb : option box) :
  length kconf = length kxy -> length bxs = length kxy ->
  exists acc,
    best_so_far (scores W H prev_bb kconf bxs) (length kxy) acc /\
    pick_best_person (detections kxy kconf bxs) W H prev_bb =
    match fst acc with
    | None => inr None
    | Some i =>
        match nth_error kxy i, nth_error kconf i, nth_error bxs i with
        | Some k, Some c, Some b => inr (Some (i, k, c, b))
        | _, _, _ => inl IndexError
        end
    end.
Proof.
  intros Hk Hb.
  destruct (select_loop W H prev_bb kconf bxs (length kxy))
    as ([bi bs] & Hf & Hinv); [lia|lia|].
  exists (bi, bs). split; [exact Hinv|].
  unfold pick_best_person, detections.
  cbn [keypoints boxes xy conf len_keypoints].
  destruct kxy as [|k0 kxy].
  - cbn in Hf. injection Hf as <- <-. reflexivity.
  - cbn [length Nat.eqb]. cbn [length] in Hf. rewrite Hf.
    destruct bi; reflexivity.
Qed.

End SelectorFacts.

(** ** Claims about the rep counters and the squat scorer *)

(** C1.  With the dwell threshold 3, a freshly reset counter fed the knee
    angles 170,170,170,100,100,100,170,170,170 (both legs equal) through
    [logic_squat] ends with exactly one rep and in phase "up"; and on a
    freshly reset counter the first frame with both knee angles present
    assigns phase "up" with dwell 0 and awards no rep. *)
Theorem squat_one_rep :
  MIN_DWELL = 3 /\
  (forall (ex : option string) (rc0 : RepCounter),
     let rc := run (logic_squat both_knees)
                 [170; 170; 170; 100; 100; 100; 170; 170; 170]%Q
                 (reset ex rc0) in
     reps rc = 1 /\ state rc = "up"%string) /\
  (forall (Kps : Type) (knee_angles : Kps -> option Q * option Q)
          (kps : Kps) (ex : option string) (rc0 : RepCounter),
     knees_measured knee_angles kps = true ->
     let rc := logic_squat knee_angles kps (reset ex rc0) in
     reps rc = 0 /\ state rc = "up"%string /\ dwell rc = 0).
Proof.
  split; [reflexivity|]. split.
  - intros ex rc0. split; reflexivity.
  - intros Kps knee_angles kps ex rc0 Hm. cbn zeta.
    unfold knees_measured in Hm. unfold logic_squat.
    destruct (knee_angles kps) as [[Lk|] [Rk|]]; try discriminate.
    rewrite reps_store_quality, state_store_quality, dwell_store_quality.
    cbn. auto.
Qed.

Lemma squat_one_rep_witness :
  knees_measured both_knees 170%Q = true /\
  reps (logic_squat both_knees 170%Q (reset None RepCounter_default)) = 0.
Proof.
  split; [reflexivity|].
  apply (proj2 (proj2 squat_one_rep) Q both_knees 170%Q None
           RepCounter_default).
  reflexivity.
Defined.

(** C2.  For each of the three counters, started from a reset and fed any
    sequence of frames: the phase changes only on a frame that completes
    three measured frames in a row on which the condition for that change
    held; a measured frame on which that condition fails sets the dwell
    count to 0; and on the squat counter a dip of two frames between frames
    with both knees above 165 degrees counts no rep. *)
Theorem dwell_threshold :
  forall (Kps : Type) (knee_angles : Kps -> option Q * option Q)
         (hip_angle_side : Kps -> string -> option Q),
    (dwell_guarded (logic_squat knee_angles) (squat_machine knee_angles) /\
     dwell_guarded (logic_sts knee_angles) (sts_machine knee_angles) /\
     dwell_guarded (logic_leg_raise hip_angle_side)
       (leg_raise_machine hip_angle_side)) /\
    (dwell_cleared (logic_squat knee_angles) (squat_machine knee_angles) /\
     dwell_cleared (logic_sts knee_angles) (sts_machine knee_angles) /\
     dwell_cleared (logic_leg_raise hip_angle_side)
       (leg_raise_machine hip_angle_side)) /\
    (forall (pre post : list Kps) (d1 d2 : Kps)
            (ex : option string) (rc0 : RepCounter),
       Forall (fun kps => knees_above knee_angles SQUAT_UP_MIN kps = true)
         pre ->
       knees_below knee_angles SQUAT_DOWN_MAX d1 = true ->
       knees_below knee_angles SQUAT_DOWN_MAX d2 = true ->
       Forall (fun kps => knees_above knee_angles SQUAT_UP_MIN kps = true)
         post ->
       reps (run (logic_squat knee_angles) (pre ++ [d1; d2] ++ post)
               (reset ex rc0)) = 0).
Proof.
  intros Kps knee_angles hip_angle_side.
  split; [|split].
  - split; [|split].
    + apply dwell_guarded_hyst; try discriminate. apply logic_squat_hyst.
    + apply dwell_guarded_hyst; try discriminate. apply logic_sts_hyst.
    + apply dwell_guarded_hyst; try discriminate. apply logic_leg_raise_hyst.
  - split; [|split].
    + apply dwell_cleared_hyst; try discriminate. apply logic_squat_hyst.
    + apply dwell_cleared_hyst; try discriminate. apply logic_sts_hyst.
    + apply dwell_cleared_hyst; try discriminate. apply logic_leg_raise_hyst.
  - intros pre post d1 d2 ex rc0 Hpre _ _ Hpost.
    apply squat_short_dip; assumption.
Qed.

Lemma dwell_threshold_witness :
  last3_hold (knees_below both_knees SQUAT_DOWN_MAX)
    (filter (knees_measured both_knees)
       ([170; 170; 170; 100; 100]%Q ++ [100%Q])) /\
  reps (run (logic_squat both_knees)
          ([170; 170; 170]%Q ++ [100; 100]%Q ++ [170; 170; 170]%Q)
          (reset None RepCounter_default)) = 0.
Proof.
  pose proof (dwell_threshold Q both_knees (fun _ _ => None))
    as [[Hsquat _] [_ Hdip]].
  split.
  - apply (proj1 (Hsquat [170; 170; 170; 100; 100]%Q 100%Q None
                    RepCounter_default)); reflexivity.
  - apply Hdip.
    + repeat constructor.
    + reflexivity.
    + reflexivity.
    + repeat constructor.
Defined.

(** C3.  A frame without a valid measurement leaves the counter exactly as
    it was: for squat and sit-to-stand when a knee angle is absent, for
    leg-raise when both hip angles are absent.  The whole record (reps,
    phase, dwell, form percentage) is unchanged. *)
Theorem unmeasured_frame_is_noop :
  forall (Kps : Type) (knee_angles : Kps -> option Q * option Q)
         (hip_angle_side : Kps -> string -> option Q)
         (kps : Kps) (rc : RepCounter),
    (fst (knee_angles kps) = None \/ snd (knee_angles kps) = None ->
     logic_squat knee_angles kps rc = rc /\
     logic_sts knee_angles kps rc = rc) /\
    (hip_angle_side kps "l"%string = None ->
     hip_angle_side kps "r"%string = None ->
     logic_leg_raise hip_angle_side kps rc = rc).
Proof.
  intros Kps knee_angles hip_angle_side kps rc. split.
  - unfold logic_squat, logic_sts.
    destruct (knee_angles kps) as [[Lk|] [Rk|]]; cbn;
      intros [H|H]; try discriminate; split; reflexivity.
  - unfold logic_leg_raise. intros -> ->. reflexivity.
Qed.

Lemma unmeasured_frame_is_noop_witness :
  let ka := fun _ : unit => (@None Q, Some 100%Q) in
  let hs := fun (_ : unit) (_ : string) => @None Q in
  let rc := mkRepCounter "squat" 4 "down" 2 57 in
  logic_squat ka tt rc = rc /\ logic_sts ka tt rc = rc /\
  logic_leg_raise hs tt rc = rc.
Proof.
  cbv zeta.
  pose proof (unmeasured_frame_is_noop unit
                (fun _ => (@None Q, Some 100%Q)) (fun _ _ => @None Q) tt
                (mkRepCounter "squat" 4 "down" 2 57)) as [Hk Hh].
  destruct (Hk (or_introl eq_refl)) as [H1 H2].
  split; [exact H1|]. split; [exact H2|].
  apply Hh; reflexivity.
Defined.

Lemma sts_step_reps {Kps : Type}
    (knee_angles : Kps -> option Q * option Q) (kps : Kps)
    (rc : RepCounter) :
  let rc' := logic_sts knee_angles kps rc in
  reps rc' = reps rc +
             (if String.eqb (state rc) "sit" && String.eqb (state rc') "stand"
              then 1 else 0).
Proof.
  cbn zeta. unfold logic_sts.
  destruct (knee_angles kps) as [[Lk|] [Rk|]];
    try (destruct (String.eqb_spec (state rc) "sit") as [E|NE];
         [rewrite E; cbn; lia | cbn; lia]).
  rewrite reps_store_quality, state_store_quality.
  destruct (String.eqb_spec (state rc) EmptyString) as [E0|N0];
    [rewrite E0; cbn; lia|].
  destruct (String.eqb_spec (state rc) "sit") as [E1|N1].
  - cbn [set_dwell dwell andb].
    destruct (Qltb STS_STAND_MIN Lk && Qltb STS_STAND_MIN Rk); cbn [andb].
    + destruct (MIN_DWELL <=? dwell rc + 1); cbn; rewrite ?E1; cbn; lia.
    + cbn. rewrite E1. cbn. lia.
  - cbn [andb]. destruct (String.eqb_spec (state rc) "stand") as [E2|N2].
    + cbn [set_dwell dwell].
      destruct (Qltb Lk STS_SIT_MAX && Qltb Rk STS_SIT_MAX); cbn [andb].
      * destruct (MIN_DWELL <=? dwell rc + 1); cbn; lia.
      * cbn; lia.
    + lia.
Qed.

(** C8.  On every frame the sit-to-stand counter adds exactly 1 to the rep
    count when the phase goes from "sit" to "stand" and adds nothing on any
    other frame (a stand-to-sit change, no change, or an unmeasured frame);
    so over any run the reps gained equal the number of sit-to-stand
    changes. *)
Theorem sts_counts_only_sit_to_stand :
  forall (Kps : Type) (knee_angles : Kps -> option Q * option Q),
    (forall (kps : Kps) (rc : RepCounter),
       let rc' := logic_sts knee_angles kps rc in
       reps rc' = reps rc +
                  (if String.eqb (state rc) "sit"
                      && String.eqb (state rc') "stand"
                   then 1 else 0)) /\
    (forall (frames : list Kps) (rc : RepCounter),
       reps (run (logic_sts knee_angles) frames rc)
       = reps rc + transitions (logic_sts knee_angles) "sit" "stand" frames rc).
Proof.
  intros Kps knee_angles. split.
  - intros kps rc. apply sts_step_reps.
  - intros frames. induction frames as [|f fs IH]; intro rc.
    + cbn. lia.
    + change (run (logic_sts knee_angles) (f :: fs) rc)
        with (run (logic_sts knee_angles) fs (logic_sts knee_angles f rc)).
      cbn [transitions]. rewrite IH.
      pose proof (sts_step_reps knee_angles f rc) as Hs.
      cbn zeta in Hs. rewrite Hs. lia.
Qed.

(** C9.  With both knee angles equal to [a], the squat form quality is 100
    at [a] = 90, 0 at [a] = 180, and does not increase as [a] grows from
    90 to 180. *)
Theorem squat_quality_monotone :
  form_quality_squat both_knees 90%Q = Some 100 /\
  form_quality_squat both_knees 180%Q = Some 0 /\
  (forall a b : Q,
     (90 <= a)%Q -> (a <= b)%Q -> (b <= 180)%Q ->
     exists qa qb : Z,
       form_quality_squat both_knees a = Some qa /\
       form_quality_squat both_knees b = Some qb /\
       qb <= qa).
Proof.
  split; [reflexivity|]. split; [reflexivity|].
  intros a b _ Hab _. unfold form_quality_squat, both_knees.
  eexists. eexists. split; [reflexivity|]. split; [reflexivity|].
  apply py_round_mono.
  pose proof (knee_score_antitone a b Hab).
  Lqa.lra.
Qed.

Lemma squat_quality_monotone_witness :
  exists qa qb : Z,
    form_quality_squat both_knees 100%Q = Some qa /\
    form_quality_squat both_knees 135%Q = Some qb /\
    qb <= qa.
Proof.
  apply (proj2 (proj2 squat_quality_monotone) 100%Q 135%Q);
    vm_compute; discriminate.
Defined.

(** ** Claim about the angle engine *)

Section AngleClaims.
Local Open Scope R_scope.

Lemma norm_vsub_unit_x :
  norm (vsub [2; 1] [1; 1]) = 1.
Proof.
  unfold norm. cbn [vsub dot].
  replace ((2 - 1) * (2 - 1) + ((1 - 1) * (1 - 1) + 0)) with 1 by ring.
  apply sqrt_1.
Qed.

Lemma norm_vsub_unit_y :
  norm (vsub [1; 2] [1; 1]) = 1.
Proof.
  unfold norm. cbn [vsub dot].
  replace ((1 - 1) * (1 - 1) + ((2 - 1) * (2 - 1) + 0)) with 1 by ring.
  apply sqrt_1.
Qed.

Lemma norm_vsub_eps :
  norm (vsub [2 * NORM_EPS; 1] [NORM_EPS; 1]) = NORM_EPS.
Proof.
  unfold norm. cbn [vsub dot].
  replace ((2 * NORM_EPS - NORM_EPS) * (2 * NORM_EPS - NORM_EPS)
           + ((1 - 1) * (1 - 1) + 0)) with (NORM_EPS * NORM_EPS) by ring.
  apply sqrt_square. unfold NORM_EPS. lra.
Qed.

Lemma norm_vsub_eps_y :
  norm (vsub [NORM_EPS; 2] [NORM_EPS; 1]) = 1.
Proof.
  unfold norm. cbn [vsub dot].
  replace ((NORM_EPS - NORM_EPS) * (NORM_EPS - NORM_EPS)
           + ((2 - 1) * (2 - 1) + 0)) with 1 by ring.
  apply sqrt_1.
Qed.

Lemma boundary_well_posed :
  well_posed false (Some [2 * NORM_EPS; 1]) (Some [NORM_EPS; 1])
    (Some [NORM_EPS; 2]).
Proof.
  assert (He : 0 < NORM_EPS) by (unfold NORM_EPS; lra).
  exists [2 * NORM_EPS; 1], [NORM_EPS; 1], [NORM_EPS; 2].
  repeat split; try (eexists; eexists; split; [reflexivity|]; lra).
  - rewrite norm_vsub_eps. lra.
  - rewrite norm_vsub_eps_y. unfold NORM_EPS. lra.
Qed.

(** C4 as stated fails where a vector's norm is exactly 1e-6: with
    a = (2e-6, 1), b = (1e-6, 1), c = (1e-6, 2) the norm of a - b is not
    above 1e-6, yet [angle_3pt] returns a value. *)
Lemma angle_3pt_strict_bound_fails :
  ~ (forall a b c : point,
       (well_posed true a b c ->
        exists theta, angle_3pt a b c = Some theta /\ 0 <= theta <= 180) /\
       (~ well_posed true a b c -> angle_3pt a b c = None)).
Proof.
  intro H.
  destruct (H (Some [2 * NORM_EPS; 1]) (Some [NORM_EPS; 1])
              (Some [NORM_EPS; 2])) as [_ Hnone].
  destruct (proj1 (angle_3pt_spec _ _ _) boundary_well_posed)
    as (theta & Heq & _).
  rewrite Hnone in Heq; [discriminate|].
  intros (va & vb & vc & [= <-] & [= <-] & [= <-] & _ & _ & _ & H1 & _).
  rewrite norm_vsub_eps in H1. lra.
Qed.

(** C4, amended.  In exact arithmetic: when the three points are arrays of
    shape (2,) with positive coordinates and both vectors a - b and c - b
    have norm at least 1e-6, [angle_3pt] returns a value between 0 and 180
    degrees; for every other input it returns [None]. *)
Theorem angle_3pt_range :
  forall a b c : point,
    (well_posed false a b c ->
     exists theta, angle_3pt a b c = Some theta /\ 0 <= theta <= 180) /\
    (~ well_posed false a b c -> angle_3pt a b c = None).
Proof. exact angle_3pt_spec. Qed.

Lemma angle_3pt_range_witness :
  (exists theta,
     angle_3pt (Some [2; 1]) (Some [1; 1]) (Some [1; 2]) = Some theta /\
     0 <= theta <= 180) /\
  angle_3pt (Some [-1; -1]) (Some [1; 1]) (Some [1; 2]) = None.
Proof.
  split.
  - apply (proj1 (angle_3pt_range (Some [2; 1]) (Some [1; 1]) (Some [1; 2]))).
    exists [2; 1], [1; 1], [1; 2].
    repeat split; try (eexists; eexists; split; [reflexivity|]; lra).
    + rewrite norm_vsub_unit_x. unfold NORM_EPS. lra.
    + rewrite norm_vsub_unit_y. unfold NORM_EPS. lra.
  - apply (proj2 (angle_3pt_range (Some [-1; -1]) (Some [1; 1])
                    (Some [1; 2]))).
    intros (va & vb & vc & [= <-] & _ & _ & (x & y & [= <- <-] & Hx & _) & _).
    lra.
Defined.

End AngleClaims.

(** ** Claims about the stabilizer *)

Section StabilizerClaims.
Import EMAStabilizer.
Local Open Scope R_scope.

Lemma low_confidence_masked :
  Rleb KEYPT_MIN_CONF (1 / 10) = false.
Proof.
  destruct (Rleb_spec KEYPT_MIN_CONF (1 / 10)) as [H|]; [|reflexivity].
  unfold KEYPT_MIN_CONF in H. lra.
Qed.


(** C5 as stated fails: with every joint stored at (100, 100), an update
    whose joint 0 has confidence 0.1 leaves the sentinel, not (100, 100),
    as the stored value of joint 0. *)
Lemma invalid_joint_state_overwritten :
  ~ (forall (self : t) (st kps : landmarks) (conf : list R) (i : nat)
            (out : landmarks) (self' : t),
       state self = Some st ->
       length st = 17%nat -> length kps = 17%nat -> length conf = 17%nat ->
       (exists cur,
          nth_error (masked kps conf) i = Some cur /\ invalid cur = true) ->
       update self (Some kps) (Some conf) = (inr (Some out), self') ->
       nth_error out i = Some sentinel /\
       exists st',
         state self' = Some st' /\ nth_error st' i = nth_error st i).
Proof.
  intro H.
  set (st := repeat (100, 100) 17 : landmarks).
  set (conf := 1 / 10 :: repeat (9 / 10) 16).
  assert (Hm : nth_error (masked st conf) 0 = Some sentinel).
  { rewrite nth_error_masked. cbn [st conf repeat nth_error].
    rewrite low_confidence_masked. reflexivity. }
  destruct (H (with_state default st) st st conf 0%nat _ _ eq_refl eq_refl
              eq_refl eq_refl
              (ex_intro _ sentinel (conj Hm invalid_sentinel))
              (update_next (with_state default st) st st conf eq_refl eq_refl
                 eq_refl eq_refl))
    as [_ (st' & Hst' & Hnth)].
  cbn [with_state state] in Hst'. injection Hst' as <-.
  rewrite nth_error_smoothed, Hm in Hnth. cbn [st repeat nth_error] in Hnth.
  rewrite smooth_invalid_current in Hnth by apply invalid_sentinel.
  unfold sentinel in Hnth. injection Hnth as Hx _. lra.
Qed.

(** C5, amended.  On a non-first update where the masked value of joint
    [i] is invalid, [update] returns the sentinel for that joint and the
    returned array becomes the stored state, so the stored value of joint
    [i] is the sentinel; on the next update a valid masked value of joint
    [i] is returned as it is, without smoothing. *)
Theorem invalid_joint_writes_sentinel :
  forall (self : t) (st kps : landmarks) (conf : list R) (i : nat),
    state self = Some st ->
    length st = 17%nat -> length kps = 17%nat -> length conf = 17%nat ->
    (exists cur,
       nth_error (masked kps conf) i = Some cur /\ invalid cur = true) ->
    exists out,
      update self (Some kps) (Some conf)
      = (inr (Some out), with_state self out) /\
      nth_error out i = Some sentinel /\
      forall (kps2 : landmarks) (conf2 : list R) (cur2 : landmark),
        length kps2 = 17%nat -> length conf2 = 17%nat ->
        nth_error (masked kps2 conf2) i = Some cur2 ->
        invalid cur2 = false ->
        exists out2,
          update (with_state self out) (Some kps2) (Some conf2)
          = (inr (Some out2), with_state self out2) /\
          nth_error out2 i = Some cur2.
Proof.
  intros self st kps conf i Hs Hl Hk Hc (cur & Hcur & Hinv).
  assert (Hi : (i < 17)%nat).
  { rewrite <- Hk, <- (length_masked kps conf) by lia.
    apply nth_error_Some. congruence. }
  destruct (nth_error st i) as [prev|] eqn:Hprev;
    [|apply nth_error_None in Hprev; lia].
  set (out := smoothed self st (masked kps conf)).
  assert (Hout : nth_error out i = Some sentinel).
  { unfold out. rewrite nth_error_smoothed, Hprev, Hcur.
    rewrite smooth_invalid_current by assumption. reflexivity. }
  exists out. split; [apply update_next; assumption|].
  split; [exact Hout|].
  intros kps2 conf2 cur2 Hk2 Hc2 Hcur2 Hval.
  exists (smoothed (with_state self out) out (masked kps2 conf2)).
  split.
  - apply (update_next (with_state self out) out kps2 conf2);
      try assumption; try reflexivity.
    unfold out. rewrite length_smoothed; [assumption|].
    rewrite length_masked; lia.
  - rewrite nth_error_smoothed, Hout, Hcur2.
    rewrite smooth_after_invalid;
      [reflexivity | assumption | apply invalid_sentinel].
Qed.

Lemma invalid_joint_writes_sentinel_witness :
  exists out,
    update (with_state default (repeat (100, 100) 17))
      (Some (repeat (100, 100) 17))
      (Some (1 / 10 :: repeat (9 / 10) 16))
    = (inr (Some out), with_state default out) /\
    nth_error out 0 = Some sentinel.
Proof.
  destruct (invalid_joint_writes_sentinel
              (with_state default (repeat (100, 100) 17))
              (repeat (100, 100) 17) (repeat (100, 100) 17)
              (1 / 10 :: repeat (9 / 10) 16) 0%nat
              eq_refl eq_refl eq_refl eq_refl) as (out & Hu & Hn & _).
  - exists sentinel. split; [|apply invalid_sentinel].
    rewrite nth_error_masked. cbn [repeat nth_error].
    rewrite low_confidence_masked. reflexivity.
  - exists out. split; assumption.
Defined.




End StabilizerClaims.

(** ** Claims about the subject selector *)

Section SelectorClaims.
Local Open Scope R_scope.



Lemma confidences_nonneg :
  Forall (fun c => 0 <= c) (repeat (9 / 10) 17).
Proof.
  apply Forall_forall. intros c Hc. apply repeat_spec in Hc. subst c. lra.
Qed.







(** C10.  On a result with all arrays present and of equal length, the
    candidate that [pick_best_person] returns has a score that no candidate
    exceeds and that every candidate of lower index stays strictly below:
    among candidates of the same maximal score the one of lowest index is
    returned.  A candidate is returned as soon as some score exceeds the
    initial -1e9, which is so whenever the list is not empty and no
    confidence is negative. *)
Theorem ties_keep_lowest_index :
  forall (kxy : list (list (R * R))) (kconf : list (list R))
         (bxs : list box) (W H : Z) (prev_bb : option box),
    length kconf = length kxy -> length bxs = length kxy ->
    let ss := scores W H prev_bb kconf bxs in
    (forall i k c b,
       pick_best_person (detections kxy kconf bxs) W H prev_bb
       = inr (Some (i, k, c, b)) ->
       nth_error kxy i = Some k /\ nth_error kconf i = Some c /\
       nth_error bxs i = Some b /\
       nth_error ss i = Some (candidate_score W H prev_bb b c) /\
       (forall j s, nth_error ss j = Some s ->
                    s <= candidate_score W H prev_bb b c) /\
       (forall j s, (j < i)%nat -> nth_error ss j = Some s ->
                    s < candidate_score W H prev_bb b c)) /\
    ((exists j s, nth_error ss j = Some s /\ - 1000000000 < s) ->
     exists sel,
       pick_best_person (detections kxy kconf bxs) W H prev_bb
       = inr (Some sel)) /\
    (kxy <> [] -> Forall (Forall (fun c => 0 <= c)) kconf ->
     exists sel,
       pick_best_person (detections kxy kconf bxs) W H prev_bb
       = inr (Some sel)).
Proof.
  intros kxy kconf bxs W H prev_bb Hk Hb ss.
  destruct (pick_best_person_loop kxy kconf bxs W H prev_bb Hk Hb)
    as ([bi bs] & Hinv & Hpick).
  assert (Hlen : length ss = length kxy).
  { unfold ss. rewrite length_scores; lia. }
  assert (Hsome : (exists j s, nth_error ss j = Some s /\ - 1000000000 < s) ->
            exists sel,
              pick_best_person (detections kxy kconf bxs) W H prev_bb
              = inr (Some sel)).
  { intros (j & s & Hj & Hs). rewrite Hpick. cbn [fst].
    destruct bi as [i|]; cbn in Hinv.
    - destruct Hinv as (Hi & _).
      destruct (nth_error kxy i) eqn:E1;
        [|apply nth_error_None in E1; lia].
      destruct (nth_error kconf i) eqn:E2;
        [|apply nth_error_None in E2; lia].
      destruct (nth_error bxs i) eqn:E3;
        [|apply nth_error_None in E3; lia].
      eexists. reflexivity.
    - destruct Hinv as [Hbs Hall]. cbn [snd] in *.
      assert (Hjn : (j < length kxy)%nat).
      { rewrite <- Hlen. apply nth_error_Some. congruence. }
      specialize (Hall j s Hjn Hj). lra. }
  split; [|split; [exact Hsome|]].
  - intros i k c b Hsel. rewrite Hpick in Hsel. cbn [fst] in Hsel.
    destruct bi as [i'|]; [|discriminate]. cbn in Hinv.
    destruct Hinv as (Hi & Hsi & _ & Hall & Hstrict).
    destruct (nth_error kxy i') eqn:E1; [|discriminate].
    destruct (nth_error kconf i') eqn:E2; [|discriminate].
    destruct (nth_error bxs i') eqn:E3; [|discriminate].
    injection Hsel as <- <- <- <-.
    assert (Hbs : bs = candidate_score W H prev_bb b0 l0).
    { unfold ss in Hsi. rewrite nth_error_scores, E3, E2 in Hsi.
      congruence. }
    rewrite <- Hbs. repeat split; auto.
    intros j s Hj. apply (Hall j s); [|assumption].
    rewrite <- Hlen. apply nth_error_Some. congruence.
  - intros Hne Hpos. apply Hsome.
    destruct kxy as [|k0 kxy]; [contradiction|].
    destruct kconf as [|c0 kconf]; [discriminate|].
    destruct bxs as [|b0 bxs]; [discriminate|].
    exists 0%nat, (candidate_score W H prev_bb b0 c0).
    split; [unfold ss; rewrite nth_error_scores; reflexivity|].
    inversion Hpos as [|? ? Hc0 _]; subst.
    pose proof (candidate_score_nonneg W H prev_bb b0 c0 Hc0). lra.
Qed.

Lemma ties_keep_lowest_index_witness :
  exists k c b,
    pick_best_person
      (detections [repeat (50, 50) 17; repeat (50, 50) 17]
         [repeat (9 / 10) 17; repeat (9 / 10) 17] [box_centre; box_centre])
      100 100 None
    = inr (Some (0%nat, k, c, b)).
Proof.
  destruct (ties_keep_lowest_index
              [repeat (50, 50) 17; repeat (50, 50) 17]
              [repeat (9 / 10) 17; repeat (9 / 10) 17]
              [box_centre; box_centre] 100 100 None eq_refl eq_refl)
    as (Hbest & _ & Hsome).
  destruct Hsome as ([[[i k] c] b] & Hsel).
  - discriminate.
  - constructor; [apply confidences_nonneg|].
    constructor; [apply confidences_nonneg|constructor].
  - destruct (Hbest i k c b Hsel) as (Hk & Hc & Hb & _ & _ & Hstrict).
    destruct i as [|[|i]].
    + exists k, c, b. exact Hsel.
    + exfalso. cbn [nth_error] in Hc, Hb.
      injection Hc as <-. injection Hb as <-.
      specialize (Hstrict 0%nat _ (Nat.lt_0_succ 0)
                    ltac:(rewrite nth_error_scores; reflexivity)).
      exact (Rlt_irrefl _ Hstrict).
    + exfalso. cbn in Hk. destruct i; discriminate.
Defined.

End SelectorClaims.

(** ** Further facts about hysteresis machines *)

Section HysteresisMore.

Context {F : Type} (M : hysteresis F).
Hypothesis start_named : start M <> EmptyString.
Hypothesis other_named : other M <> EmptyString.
Hypothesis phases_differ : start M <> other M.

(** What one frame does, by the phase the counter is in. *)
Lemma hyst_step_unmeasured f rc :
  measured M f = false -> hyst_step M f rc = rc.
Proof. unfold hyst_step. intros ->. reflexivity. Qed.

Lemma hyst_step_fresh f rc :
  measured M f = true -> state rc = EmptyString ->
  hyst_step M f rc = store_quality (quality M f) (set_phase (start M) 0 rc).
Proof. unfold hyst_step. intros -> ->. reflexivity. Qed.

Lemma hyst_step_start f rc :
  measured M f = true -> state rc = start M ->
  hyst_step M f rc =
  store_quality (quality M f)
    (if leave_start M f
     then (if MIN_DWELL <=? dwell rc + 1
           then set_phase (other M) 0
                  (if count_leaving_start M
                   then incr_reps (set_dwell (dwell rc + 1) rc)
                   else set_dwell (dwell rc + 1) rc)
           else set_dwell (dwell rc + 1) rc)
     else set_dwell 0 rc).
Proof.
  unfold hyst_step. intros -> Hs. rewrite Hs.
  destruct (String.eqb_spec (start M) EmptyString); [contradiction|].
  rewrite String.eqb_refl. cbn [set_dwell dwell].
  destruct (leave_start M f); reflexivity.
Qed.

Lemma hyst_step_other f rc :
  measured M f = true -> state rc = other M ->
  hyst_step M f rc =
  store_quality (quality M f)
    (if leave_other M f
     then (if MIN_DWELL <=? dwell rc + 1
           then set_phase (start M) 0
                  (if count_leaving_start M
                   then set_dwell (dwell rc + 1) rc
                   else incr_reps (set_dwell (dwell rc + 1) rc))
           else set_dwell (dwell rc + 1) rc)
     else set_dwell 0 rc).
Proof.
  unfold hyst_step. intros -> Hs. rewrite Hs.
  destruct (String.eqb_spec (other M) EmptyString); [contradiction|].
  destruct (String.eqb_spec (other M) (start M)); [congruence|].
  rewrite String.eqb_refl. cbn [set_dwell dwell].
  destruct (leave_other M f); reflexivity.
Qed.

Lemma hyst_step_foreign f rc :
  measured M f = true -> ~ own_label M (state rc) ->
  hyst_step M f rc = store_quality (quality M f) rc.
Proof.
  unfold hyst_step, own_label. intros -> Hn.
  destruct (String.eqb_spec (state rc) EmptyString); [tauto|].
  destruct (String.eqb_spec (state rc) (start M)); [tauto|].
  destruct (String.eqb_spec (state rc) (other M)); [tauto|].
  reflexivity.
Qed.

Lemma own_label_cases s :
  own_label M s \/ ~ own_label M s.
Proof.
  unfold own_label.
  destruct (String.eqb_spec s EmptyString); [tauto|].
  destruct (String.eqb_spec s (start M)); [tauto|].
  destruct (String.eqb_spec s (other M)); tauto.
Qed.

Lemma eqb_start_other : String.eqb (start M) (other M) = false.
Proof. apply String.eqb_neq, phases_differ. Qed.

Lemma eqb_other_start : String.eqb (other M) (start M) = false.
Proof. apply String.eqb_neq. congruence. Qed.

(** A frame adds one rep exactly when the phase goes the counting way. *)
Lemma hyst_step_reps f rc :
  reps (hyst_step M f rc)
  = reps rc + counted M (state rc) (state (hyst_step M f rc)).
Proof.
  unfold counted.
  destruct (measured M f) eqn:Hm.
  2:{ rewrite hyst_step_unmeasured by assumption.
      destruct (count_leaving_start M);
        [destruct (String.eqb_spec (state rc) (start M)) as [->|]
        |destruct (String.eqb_spec (state rc) (other M)) as [->|]];
        cbn [andb]; rewrite ?eqb_start_other, ?eqb_other_start; lia. }
  destruct (own_label_cases (state rc)) as [[H0|[Hs|Ho]]|Hf].
  - rewrite hyst_step_fresh by assumption.
    rewrite reps_store_quality, state_store_quality, H0.
    cbn [set_phase reps state].
    destruct (String.eqb_spec EmptyString (start M)); [congruence|].
    destruct (String.eqb_spec EmptyString (other M)); [congruence|].
    destruct (count_leaving_start M); cbn [andb]; lia.
  - rewrite hyst_step_start by assumption.
    rewrite reps_store_quality, state_store_quality, Hs.
    rewrite String.eqb_refl, eqb_start_other.
    destruct (leave_start M f); [destruct (MIN_DWELL <=? dwell rc + 1)|];
      destruct (count_leaving_start M); cbn;
      rewrite ?Hs, ?String.eqb_refl, ?eqb_start_other; cbn; lia.
  - rewrite hyst_step_other by assumption.
    rewrite reps_store_quality, state_store_quality, Ho.
    rewrite String.eqb_refl, eqb_other_start.
    destruct (leave_other M f); [destruct (MIN_DWELL <=? dwell rc + 1)|];
      destruct (count_leaving_start M); cbn;
      rewrite ?Ho, ?String.eqb_refl, ?eqb_other_start; cbn; lia.
  - rewrite hyst_step_foreign by assumption.
    rewrite reps_store_quality, state_store_quality.
    unfold own_label in Hf.
    destruct (count_leaving_start M);
      [destruct (String.eqb_spec (state rc) (start M))
      |destruct (String.eqb_spec (state rc) (other M))];
      try tauto; cbn [andb]; lia.
Qed.

Lemma run_reps_transitions logic :
  (forall f rc, logic f rc = hyst_step M f rc) ->
  forall fs rc,
    reps (run logic fs rc)
    = reps rc +
      (if count_leaving_start M
       then transitions logic (start M) (other M) fs rc
       else transitions logic (other M) (start M) fs rc).
Proof.
  intros E fs. induction fs as [|f fs IH]; intro rc.
  - cbn. destruct (count_leaving_start M); lia.
  - change (run logic (f :: fs) rc) with (run logic fs (logic f rc)).
    rewrite IH. cbn [transitions].
    pose proof (hyst_step_reps f rc) as Hs. rewrite <- E in Hs.
    rewrite Hs. unfold counted.
    destruct (count_leaving_start M); lia.
Qed.

(** A counter with a label of another exercise is frozen. *)
Lemma hyst_foreign_frozen fs rc :
  ~ own_label M (state rc) ->
  let rc' := run (hyst_step M) fs rc in
  reps rc' = reps rc /\ state rc' = state rc /\ dwell rc' = dwell rc.
Proof.
  intro Hf. cbn zeta. revert rc Hf.
  induction fs as [|f fs IH]; intros rc Hf; [cbn; auto|].
  change (run (hyst_step M) (f :: fs) rc)
    with (run (hyst_step M) fs (hyst_step M f rc)).
  assert (Hstep : reps (hyst_step M f rc) = reps rc /\
                  state (hyst_step M f rc) = state rc /\
                  dwell (hyst_step M f rc) = dwell rc).
  { destruct (measured M f) eqn:Hm.
    - rewrite hyst_step_foreign by assumption.
      rewrite reps_store_quality, state_store_quality, dwell_store_quality.
      auto.
    - rewrite hyst_step_unmeasured by assumption. auto. }
  destruct Hstep as (Hr & Hs & Hd).
  destruct (IH (hyst_step M f rc)) as (IHr & IHs & IHd);
    [rewrite Hs; exact Hf|].
  rewrite IHr, IHs, IHd. auto.
Qed.

(** From a reset: the label is empty exactly until the first measured
    frame, the dwell count stays between 0 and 2, reps are not negative,
    and the progress is covered by the measured frames. *)
Lemma hyst_run_invariant fs ex rc0 :
  let rc := run (hyst_step M) fs (reset ex rc0) in
  (measured_count M fs = 0 /\ rc = reset ex rc0) \/
  (0 < measured_count M fs /\
   (state rc = start M \/ state rc = other M) /\
   0 <= dwell rc < MIN_DWELL /\ 0 <= reps rc /\
   progress M rc <= measured_count M fs - 1).
Proof.
  cbn zeta. unfold measured_count.
  induction fs as [|f fs IH] using rev_ind; [left; auto|].
  rewrite run_snoc, filter_snoc.
  destruct (measured M f) eqn:Hm;
    [|rewrite hyst_step_unmeasured by assumption; exact IH].
  rewrite length_app, Nat2Z.inj_add. cbn [length].
  set (rc := run (hyst_step M) fs (reset ex rc0)) in *.
  set (n := Z.of_nat (length (filter (measured M) fs))) in *.
  right. split; [lia|].
  unfold progress, MIN_DWELL in *.
  destruct IH as [[Hn Hrc] | (Hn & Hst & Hd & Hr & Hp)].
  - rewrite hyst_step_fresh by (assumption || (rewrite Hrc; reflexivity)).
    rewrite state_store_quality, dwell_store_quality, reps_store_quality.
    rewrite Hrc. cbn [set_phase state dwell reps reset].
    rewrite String.eqb_refl, eqb_start_other.
    split; [auto|]. destruct (count_leaving_start M); lia.
  - destruct Hst as [Hs|Ho].
    + rewrite hyst_step_start by assumption.
      rewrite state_store_quality, dwell_store_quality, reps_store_quality.
      rewrite Hs, String.eqb_refl, eqb_start_other in Hp.
      unfold MIN_DWELL.
      destruct (leave_start M f);
        [destruct (Z.leb_spec 3 (dwell rc + 1))|];
        destruct (count_leaving_start M);
        cbn [state dwell reps set_phase set_dwell incr_reps];
        rewrite ?Hs, ?String.eqb_refl, ?eqb_start_other,
          ?eqb_other_start;
        (split; [auto|]); lia.
    + rewrite hyst_step_other by assumption.
      rewrite state_store_quality, dwell_store_quality, reps_store_quality.
      rewrite Ho, String.eqb_refl, eqb_other_start in Hp.
      unfold MIN_DWELL.
      destruct (leave_other M f);
        [destruct (Z.leb_spec 3 (dwell rc + 1))|];
        destruct (count_leaving_start M);
        cbn [state dwell reps set_phase set_dwell incr_reps];
        rewrite ?Ho, ?String.eqb_refl, ?eqb_start_other,
          ?eqb_other_start;
        (split; [auto|]); lia.
Qed.

End HysteresisMore.

(** ** Further properties of the rep counters and the form scorer *)

Lemma py_round_comp (x y : Q) : (x == y)%Q -> py_round x = py_round y.
Proof.
  intro E. apply Z.le_antisymm; apply py_round_mono; rewrite E;
    apply Qle_refl.
Qed.

Lemma py_round_percent (x : Q) :
  (0 <= x)%Q -> (x <= 1)%Q -> percent (py_round (100 * x)).
Proof.
  intros H0 H1. unfold percent.
  split.
  - apply Z.le_trans with (py_round 0); [vm_compute; discriminate|].
    apply py_round_mono. Lqa.lra.
  - apply Z.le_trans with (py_round 100); [|vm_compute; discriminate].
    apply py_round_mono. Lqa.lra.
Qed.

Lemma mean_one (s : Q) : (mean [s] == s)%Q.
Proof. unfold mean. cbn. field. Qed.

Lemma mean_two (s t : Q) : (mean [s; t] == (1 # 2) * (s + t))%Q.
Proof. unfold mean. cbn. field. Qed.

Section CounterExtras.

Variable Kps : Type.
Variable knee_angles : Kps -> option Q * option Q.
Variable hip_angle_side : Kps -> string -> option Q.

Lemma form_quality_squat_percent kps q :
  form_quality_squat knee_angles kps = Some q -> percent q.
Proof.
  unfold form_quality_squat.
  destruct (knee_angles kps) as [[Lk|] [Rk|]]; try discriminate.
  intros [= <-]. unfold knee_score.
  pose proof (_clamp01_range ((180 - Lk) / (180 - 90))).
  pose proof (_clamp01_range ((180 - Rk) / (180 - 90))).
  apply py_round_percent; Lqa.lra.
Qed.

Lemma form_quality_sts_percent kps q :
  form_quality_sts knee_angles kps = Some q -> percent q.
Proof.
  unfold form_quality_sts.
  destruct (knee_angles kps) as [[Lk|] [Rk|]]; try discriminate.
  intros [= <-]. unfold ext_score.
  pose proof (_clamp01_range ((Lk - 120) / (180 - 120))).
  pose proof (_clamp01_range ((Rk - 120) / (180 - 120))).
  apply py_round_percent; Lqa.lra.
Qed.

Lemma form_quality_legraise_percent kps q :
  form_quality_legraise hip_angle_side kps = Some q -> percent q.
Proof.
  unfold form_quality_legraise.
  destruct (hip_angle_side kps "l") as [Lh|],
           (hip_angle_side kps "r") as [Rh|]; try discriminate;
    cbn [app]; intros [= <-].
  - pose proof (_clamp01_range ((180 - Lh) / (180 - 90))).
    pose proof (_clamp01_range ((180 - Rh) / (180 - 90))).
    apply py_round_percent; rewrite mean_two; Lqa.lra.
  - pose proof (_clamp01_range ((180 - Lh) / (180 - 90))).
    apply py_round_percent; rewrite mean_one; Lqa.lra.
  - pose proof (_clamp01_range ((180 - Rh) / (180 - 90))).
    apply py_round_percent; rewrite mean_one; Lqa.lra.
Qed.

Lemma form_pct_store_quality q rc :
  (forall v, q = Some v -> percent v) -> percent (form_pct rc) ->
  percent (form_pct (store_quality q rc)).
Proof. intros Hq Hrc. destruct q as [v|]; cbn; auto. Qed.

(** The phase part of a frame step never touches the form percentage. *)
Lemma hyst_step_form_pct {F : Type} (M : hysteresis F) f rc :
  (forall v, quality M f = Some v -> percent v) ->
  percent (form_pct rc) -> percent (form_pct (hyst_step M f rc)).
Proof.
  intros Hq Hrc. unfold hyst_step.
  destruct (measured M f); [|assumption].
  apply form_pct_store_quality; [assumption|].
  repeat match goal with
         | |- context [if ?c then _ else _] => destruct c
         end; cbn; assumption.
Qed.

Lemma run_form_pct {F : Type} (M : hysteresis F) logic :
  (forall f rc, logic f rc = hyst_step M f rc) ->
  (forall f v, quality M f = Some v -> percent v) ->
  forall fs rc, percent (form_pct rc) -> percent (form_pct (run logic fs rc)).
Proof.
  intros E Hq fs. induction fs as [|f fs IH]; intros rc Hrc; [exact Hrc|].
  change (run logic (f :: fs) rc) with (run logic fs (logic f rc)).
  apply IH. rewrite E. apply hyst_step_form_pct; [apply Hq|assumption].
Qed.

Lemma settled_hyst {F : Type} (M : hysteresis F) logic :
  start M <> EmptyString -> other M <> EmptyString -> start M <> other M ->
  (forall f rc, logic f rc = hyst_step M f rc) ->
  settled logic M.
Proof.
  intros H1 H2 H3 E fs ex rc0. cbn zeta. rewrite (run_ext _ _ E).
  destruct (hyst_run_invariant M H1 H2 H3 fs ex rc0)
    as [[Hn ->] | (Hn & Hst & Hd & Hr & _)].
  - rewrite Hn. cbn. unfold MIN_DWELL. repeat split; lia.
  - destruct (Z.eqb_spec (measured_count M fs) 0); [lia|]. auto.
Qed.

Lemma frozen_hyst {F : Type} (M : hysteresis F) logic :
  (forall f rc, logic f rc = hyst_step M f rc) ->
  frozen_on_foreign_label logic M.
Proof.
  intros E fs rc Hf. cbn zeta. rewrite (run_ext _ _ E).
  apply (hyst_foreign_frozen M fs rc Hf).
Qed.

End CounterExtras.

(** X1.  The squat counter adds exactly 1 to the rep count on a frame
    where the phase goes from "down" to "up" and nothing on any other
    frame; over any run the reps gained equal the number of down-to-up
    changes. *)
Theorem squat_counts_only_down_to_up :
  forall (Kps : Type) (knee_angles : Kps -> option Q * option Q),
    (forall (kps : Kps) (rc : RepCounter),
       let rc' := logic_squat knee_angles kps rc in
       reps rc' = reps rc +
                  (if String.eqb (state rc) "down"
                      && String.eqb (state rc') "up"
                   then 1 else 0)) /\
    (forall (frames : list Kps) (rc : RepCounter),
       reps (run (logic_squat knee_angles) frames rc)
       = reps rc
         + transitions (logic_squat knee_angles) "down" "up" frames rc).
Proof.
  intros Kps knee_angles. split.
  - intros kps rc. cbn zeta. rewrite logic_squat_hyst.
    apply (hyst_step_reps (squat_machine knee_angles)); discriminate.
  - intros frames rc.
    apply (run_reps_transitions (squat_machine knee_angles));
      try discriminate.
    apply logic_squat_hyst.
Qed.

(** X2.  The leg-raise counter adds exactly 1 to the rep count on a frame
    where the phase goes from "up" to "down" and nothing on any other
    frame; over any run the reps gained equal the number of up-to-down
    changes. *)
Theorem leg_raise_counts_only_up_to_down :
  forall (Kps : Type) (hip_angle_side : Kps -> string -> option Q),
    (forall (kps : Kps) (rc : RepCounter),
       let rc' := logic_leg_raise hip_angle_side kps rc in
       reps rc' = reps rc +
                  (if String.eqb (state rc) "up"
                      && String.eqb (state rc') "down"
                   then 1 else 0)) /\
    (forall (frames : list Kps) (rc : RepCounter),
       reps (run (logic_leg_raise hip_angle_side) frames rc)
       = reps rc
         + transitions (logic_leg_raise hip_angle_side) "up" "down"
             frames rc).
Proof.
  intros Kps hip_angle_side. split.
  - intros kps rc. cbn zeta. rewrite logic_leg_raise_hyst.
    apply (hyst_step_reps (leg_raise_machine hip_angle_side)); discriminate.
  - intros frames rc.
    apply (run_reps_transitions (leg_raise_machine hip_angle_side));
      try discriminate.
    apply logic_leg_raise_hyst.
Qed.

(** X3.  For each of the three counters, started from a reset and fed any
    frames: the dwell count stays in 0..2, the rep count is never
    negative, and the phase label is empty exactly until the first
    measured frame and one of the exercise's two phases from then on. *)
Theorem counters_settled :
  forall (Kps : Type) (knee_angles : Kps -> option Q * option Q)
         (hip_angle_side : Kps -> string -> option Q),
    settled (logic_squat knee_angles) (squat_machine knee_angles) /\
    settled (logic_sts knee_angles) (sts_machine knee_angles) /\
    settled (logic_leg_raise hip_angle_side)
      (leg_raise_machine hip_angle_side).
Proof.
  intros Kps knee_angles hip_angle_side. split; [|split].
  - apply settled_hyst; try discriminate. apply logic_squat_hyst.
  - apply settled_hyst; try discriminate. apply logic_sts_hyst.
  - apply settled_hyst; try discriminate. apply logic_leg_raise_hyst.
Qed.

(** X4.  A rep costs six measured frames.  Started from a reset, the squat
    and the leg-raise counter have counted [r] reps only after at least
    6 r + 1 measured frames (when r > 0), and the sit-to-stand counter only
    after at least 6 r - 2. *)
Theorem reps_need_six_frames_each :
  forall (Kps : Type) (knee_angles : Kps -> option Q * option Q)
         (hip_angle_side : Kps -> string -> option Q)
         (fs : list Kps) (ex : option string) (rc0 : RepCounter),
    (let r := reps (run (logic_squat knee_angles) fs (reset ex rc0)) in
     r = 0 \/
     6 * r + 1 <= measured_count (squat_machine knee_angles) fs) /\
    (let r := reps (run (logic_leg_raise hip_angle_side) fs (reset ex rc0)) in
     r = 0 \/
     6 * r + 1 <= measured_count (leg_raise_machine hip_angle_side) fs) /\
    (let r := reps (run (logic_sts knee_angles) fs (reset ex rc0)) in
     6 * r - 2 <= measured_count (sts_machine knee_angles) fs).
Proof.
  intros Kps knee_angles hip_angle_side fs ex rc0. cbn zeta.
  rewrite (run_ext _ _ (logic_squat_hyst Kps knee_angles)).
  rewrite (run_ext _ _ (logic_sts_hyst Kps knee_angles)).
  rewrite (run_ext _ _
             (logic_leg_raise_hyst Kps hip_angle_side)).
  split; [|split].
  - destruct (hyst_run_invariant (squat_machine knee_angles)
                ltac:(discriminate) ltac:(discriminate)
                ltac:(discriminate) fs ex rc0)
      as [[Hn ->] | (Hn & Hst & Hd & Hr & Hp)]; [left; reflexivity|].
    right. unfold progress in Hp.
    cbn [count_leaving_start squat_machine] in Hp.
    destruct (String.eqb _ _) in Hp; lia.
  - destruct (hyst_run_invariant (leg_raise_machine hip_angle_side)
                ltac:(discriminate) ltac:(discriminate)
                ltac:(discriminate) fs ex rc0)
      as [[Hn ->] | (Hn & Hst & Hd & Hr & Hp)]; [left; reflexivity|].
    right. unfold progress in Hp.
    cbn [count_leaving_start leg_raise_machine] in Hp.
    destruct (String.eqb _ _) in Hp; lia.
  - destruct (hyst_run_invariant (sts_machine knee_angles)
                ltac:(discriminate) ltac:(discriminate)
                ltac:(discriminate) fs ex rc0)
      as [[Hn ->] | (Hn & Hst & Hd & Hr & Hp)].
    + rewrite Hn. cbn. lia.
    + unfold progress in Hp. cbn [count_leaving_start sts_machine] in Hp.
      destruct (String.eqb _ _) in Hp; lia.
Qed.

(** X5.  Every form quality is a percentage: the three scorers return
    values between 0 and 100, and a counter started from a reset shows a
    form percentage between 0 and 100 after any frames. *)
Theorem form_pct_is_percentage :
  forall (Kps : Type) (knee_angles : Kps -> option Q * option Q)
         (hip_angle_side : Kps -> string -> option Q),
    (forall kps q,
       form_quality_squat knee_angles kps = Some q \/
       form_quality_sts knee_angles kps = Some q \/
       form_quality_legraise hip_angle_side kps = Some q ->
       0 <= q <= 100) /\
    (forall (fs : list Kps) (ex : option string) (rc0 : RepCounter),
       0 <= form_pct (run (logic_squat knee_angles) fs (reset ex rc0)) <= 100
       /\
       0 <= form_pct (run (logic_sts knee_angles) fs (reset ex rc0)) <= 100
       /\
       0 <= form_pct (run (logic_leg_raise hip_angle_side) fs
                        (reset ex rc0)) <= 100).
Proof.
  intros Kps knee_angles hip_angle_side. split.
  - intros kps q [H|[H|H]].
    + eapply form_quality_squat_percent; eassumption.
    + eapply form_quality_sts_percent; eassumption.
    + eapply form_quality_legraise_percent; eassumption.
  - intros fs ex rc0.
    assert (H0 : percent (form_pct (reset ex rc0)))
      by (unfold percent; cbn; lia).
    split; [|split].
    + apply (run_form_pct (squat_machine knee_angles));
        [apply logic_squat_hyst| |exact H0].
      intros f v. apply form_quality_squat_percent.
    + apply (run_form_pct (sts_machine knee_angles));
        [apply logic_sts_hyst| |exact H0].
      intros f v. apply form_quality_sts_percent.
    + apply (run_form_pct (leg_raise_machine hip_angle_side));
        [apply logic_leg_raise_hyst| |exact H0].
      intros f v. apply form_quality_legraise_percent.
Qed.

Lemma form_pct_is_percentage_witness :
  0 <= 50 <= 100.
Proof.
  apply (proj1 (form_pct_is_percentage Q both_knees (fun _ _ => None))
           135%Q 50).
  left. reflexivity.
Defined.

(** X6.  On every frame with a valid measurement the counter's form
    percentage becomes that frame's form quality: the scorer always yields
    a value there, so the old percentage is kept only on frames without a
    valid measurement. *)
Theorem measured_frame_sets_form_pct :
  forall (Kps : Type) (knee_angles : Kps -> option Q * option Q)
         (hip_angle_side : Kps -> string -> option Q)
         (kps : Kps) (rc : RepCounter),
    (knees_measured knee_angles kps = true ->
     form_quality_squat knee_angles kps
     = Some (form_pct (logic_squat knee_angles kps rc)) /\
     form_quality_sts knee_angles kps
     = Some (form_pct (logic_sts knee_angles kps rc))) /\
    (hips_measured hip_angle_side kps = true ->
     form_quality_legraise hip_angle_side kps
     = Some (form_pct (logic_leg_raise hip_angle_side kps rc))).
Proof.
  intros Kps knee_angles hip_angle_side kps rc. split.
  - unfold knees_measured, logic_squat, logic_sts, form_quality_squat,
      form_quality_sts.
    destruct (knee_angles kps) as [[Lk|] [Rk|]]; try discriminate.
    intros _. split; reflexivity.
  - unfold hips_measured, logic_leg_raise, form_quality_legraise.
    destruct (hip_angle_side kps "l"%string) as [Lh|],
             (hip_angle_side kps "r"%string) as [Rh|]; try discriminate;
      intros _; reflexivity.
Qed.

Lemma measured_frame_sets_form_pct_witness :
  form_quality_squat both_knees 135%Q
  = Some (form_pct (logic_squat both_knees 135%Q
                      (mkRepCounter "squat" 2 "up" 1 7))).
Proof.
  apply (proj1 (measured_frame_sets_form_pct Q both_knees
                  (fun _ _ => None) 135%Q
                  (mkRepCounter "squat" 2 "up" 1 7))).
  reflexivity.
Defined.

Lemma ext_score_monotone (a b : Q) :
  (a <= b)%Q -> (ext_score a <= ext_score b)%Q.
Proof.
  intro H. unfold ext_score. apply _clamp01_mono, Qdiv_le_mono; Lqa.lra.
Qed.

Lemma _clamp01_low (x : Q) : (x <= 0)%Q -> (_clamp01 x == 0)%Q.
Proof.
  intro H. unfold _clamp01, py_max, py_min.
  destruct (Qltb_spec x 1);
    repeat match goal with
           | |- context [Qltb ?a ?b] => destruct (Qltb_spec a b)
           end; Lqa.lra.
Qed.

Lemma _clamp01_high (x : Q) : (1 <= x)%Q -> (_clamp01 x == 1)%Q.
Proof.
  intro H. unfold _clamp01, py_max, py_min.
  destruct (Qltb_spec x 1);
    repeat match goal with
           | |- context [Qltb ?a ?b] => destruct (Qltb_spec a b)
           end; Lqa.lra.
Qed.

(** X7.  With both knee angles equal to [a], the sit-to-stand form
    quality is 0 for every [a] up to 120 degrees, 100 for every [a] from
    180 degrees on, and never decreases as [a] grows. *)
Theorem sts_quality_monotone :
  forall a b : Q,
    ((a <= 120)%Q -> form_quality_sts both_knees a = Some 0) /\
    ((180 <= a)%Q -> form_quality_sts both_knees a = Some 100) /\
    ((a <= b)%Q ->
     exists qa qb : Z,
       form_quality_sts both_knees a = Some qa /\
       form_quality_sts both_knees b = Some qb /\
       qa <= qb).
Proof.
  intros a b. unfold form_quality_sts, both_knees. split; [|split].
  - intro H. change (Some 0) with (Some (py_round 0)). f_equal.
    apply py_round_comp.
    unfold ext_score.
    rewrite _clamp01_low by (apply Qle_shift_div_r; Lqa.lra). ring.
  - intro H. change (Some 100) with (Some (py_round 100)). f_equal.
    apply py_round_comp.
    unfold ext_score.
    rewrite _clamp01_high by (apply Qle_shift_div_l; Lqa.lra). ring.
  - intro H. eexists. eexists. split; [reflexivity|]. split; [reflexivity|].
    apply py_round_mono. pose proof (ext_score_monotone a b H). Lqa.lra.
Qed.

Lemma sts_quality_monotone_witness :
  form_quality_sts both_knees 100%Q = Some 0 /\
  form_quality_sts both_knees 190%Q = Some 100 /\
  exists qa qb : Z,
    form_quality_sts both_knees 130%Q = Some qa /\
    form_quality_sts both_knees 150%Q = Some qb /\
    qa <= qb.
Proof.
  split; [|split].
  - apply (proj1 (sts_quality_monotone 100%Q 100%Q)).
    vm_compute; discriminate.
  - apply (proj1 (proj2 (sts_quality_monotone 190%Q 190%Q))).
    vm_compute; discriminate.
  - apply (proj2 (proj2 (sts_quality_monotone 130%Q 150%Q))).
    vm_compute; discriminate.
Defined.

(** X8.  A leg-raise frame with only one hip angle measured is handled
    exactly like a frame on which both hips have that angle: the counter
    after the frame is the same record. *)
Theorem leg_raise_one_side_counts_as_both :
  forall (Kps : Type) (hip_angle_side : Kps -> string -> option Q)
         (one both : Kps) (a : Q) (rc : RepCounter),
    hip_angle_side both "l"%string = Some a ->
    hip_angle_side both "r"%string = Some a ->
    (hip_angle_side one "l"%string = Some a /\
     hip_angle_side one "r"%string = None) \/
    (hip_angle_side one "l"%string = None /\
     hip_angle_side one "r"%string = Some a) ->
    logic_leg_raise hip_angle_side one rc
    = logic_leg_raise hip_angle_side both rc.
Proof.
  intros Kps hs one both a rc Hl Hr H.
  unfold logic_leg_raise, form_quality_legraise.
  rewrite Hl, Hr.
  destruct H as [[-> ->] | [-> ->]]; cbn [lr_any_up lr_both_down app];
    rewrite (py_round_comp
               (100 * mean [_clamp01 ((180 - a) / (180 - 90))])
               (100 * mean [_clamp01 ((180 - a) / (180 - 90));
                            _clamp01 ((180 - a) / (180 - 90))]))
      by (rewrite mean_one, mean_two; Lqa.lra);
    destruct (Qltb a LR_UP_MAX), (Qltb LR_DOWN_MIN a); reflexivity.
Qed.

Lemma leg_raise_one_side_counts_as_both_witness :
  logic_leg_raise hips (Some 100%Q, None)
    (mkRepCounter "leg_raise" 0 "down" 2 0)
  = logic_leg_raise hips (Some 100%Q, Some 100%Q)
      (mkRepCounter "leg_raise" 0 "down" 2 0).
Proof.
  apply (leg_raise_one_side_counts_as_both _ hips (Some 100%Q, None)
           (Some 100%Q, Some 100%Q) 100%Q);
    [reflexivity | reflexivity | left; split; reflexivity].
Defined.

(** X9.  A counter whose phase label belongs to another exercise (neither
    empty nor one of the two phases of the logic function that is run) is
    frozen: no sequence of frames changes its reps, label or dwell. *)
Theorem foreign_label_freezes_counter :
  forall (Kps : Type) (knee_angles : Kps -> option Q * option Q)
         (hip_angle_side : Kps -> string -> option Q),
    frozen_on_foreign_label (logic_squat knee_angles)
      (squat_machine knee_angles) /\
    frozen_on_foreign_label (logic_sts knee_angles)
      (sts_machine knee_angles) /\
    frozen_on_foreign_label (logic_leg_raise hip_angle_side)
      (leg_raise_machine hip_angle_side).
Proof.
  intros Kps knee_angles hip_angle_side. split; [|split].
  - apply frozen_hyst, logic_squat_hyst.
  - apply frozen_hyst, logic_sts_hyst.
  - apply frozen_hyst, logic_leg_raise_hyst.
Qed.

Lemma foreign_label_freezes_counter_witness :
  reps (run (logic_squat both_knees)
          [170; 100; 100; 100; 170; 170; 170]%Q
          (mkRepCounter "squat" 0 "sit" 0 0)) = 0.
Proof.
  apply (proj1 (foreign_label_freezes_counter Q both_knees
                  (fun _ _ => None))
           [170; 100; 100; 100; 170; 170; 170]%Q
           (mkRepCounter "squat" 0 "sit" 0 0)).
  unfold own_label. cbn. intros [H|[H|H]]; discriminate.
Defined.

(** ** Further properties of the angle engine *)

Section AngleExtras.
Local Open Scope R_scope.

Lemma dot_comm (u v : vec) : dot u v = dot v u.
Proof.
  revert v. induction u as [|x u IH]; intros [|y v]; cbn; try reflexivity.
  rewrite IH. ring.
Qed.

(** The value [angle_3pt] returns on a well-posed triple. *)
Lemma angle_3pt_value (va vb vc : vec) :
  well_posed false (Some va) (Some vb) (Some vc) ->
  angle_3pt (Some va) (Some vb) (Some vc)
  = Some (degrees (acos (clip (dot (vsub va vb) (vsub vc vb)
                               / (norm (vsub va vb) * norm (vsub vc vb)))
                           (-1) 1))).
Proof.
  intros (? & ? & ? & [= <-] & [= <-] & [= <-] & Pa & Pb & Pc & H1 & H2).
  unfold angle_3pt.
  rewrite (proj2 (_valid_point_positive2 (Some va))) by eauto.
  rewrite (proj2 (_valid_point_positive2 (Some vb))) by eauto.
  rewrite (proj2 (_valid_point_positive2 (Some vc))) by eauto.
  cbn [andb negb].
  rewrite 2 Rltb_false by assumption. reflexivity.
Qed.

Lemma clip_inside (x : R) : -1 <= x <= 1 -> clip x (-1) 1 = x.
Proof.
  intros [H1 H2]. unfold clip. rewrite Rmax_left, Rmin_left; lra.
Qed.

(** X10.  The angle at [b] does not depend on the order of the two
    endpoints: [angle_3pt a b c = angle_3pt c b a] for all inputs. *)
Theorem angle_3pt_symmetric :
  forall a b c : point, angle_3pt a b c = angle_3pt c b a.
Proof.
  intros a b c. unfold angle_3pt.
  destruct (_valid_point a), (_valid_point b), (_valid_point c);
    cbn [andb negb]; try reflexivity.
  destruct a as [va|], b as [vb|], c as [vc|]; try reflexivity.
  rewrite (orb_comm (Rltb (norm (vsub va vb)) NORM_EPS)).
  destruct (Rltb (norm (vsub vc vb)) NORM_EPS
            || Rltb (norm (vsub va vb)) NORM_EPS); [reflexivity|].
  rewrite (dot_comm (vsub va vb)),
    (Rmult_comm (norm (vsub va vb))). reflexivity.
Qed.

(** X11.  A right angle reads 90 degrees: on a well-posed triple whose
    vectors a - b and c - b have dot product 0, [angle_3pt] returns 90. *)
Theorem angle_3pt_right_angle :
  forall va vb vc : vec,
    well_posed false (Some va) (Some vb) (Some vc) ->
    dot (vsub va vb) (vsub vc vb) = 0 ->
    angle_3pt (Some va) (Some vb) (Some vc) = Some 90.
Proof.
  intros va vb vc Hw Hd. rewrite angle_3pt_value by assumption.
  rewrite Hd, Rdiv_0_l, clip_inside by lra.
  rewrite acos_0. f_equal. unfold degrees.
  pose proof PI_RGT_0. field. lra.
Qed.

Lemma angle_3pt_right_angle_witness :
  angle_3pt (Some [2; 1]) (Some [1; 1]) (Some [1; 2]) = Some 90.
Proof.
  apply angle_3pt_right_angle.
  - exists [2; 1], [1; 1], [1; 2].
    repeat split; try (eexists; eexists; split; [reflexivity|]; lra).
    + rewrite norm_vsub_unit_x. unfold NORM_EPS. lra.
    + rewrite norm_vsub_unit_y. unfold NORM_EPS. lra.
  - cbn [vsub dot]. ring.
Defined.

End AngleExtras.

(** ** Further properties of the stabilizer *)

Section StabilizerExtras.
Import EMAStabilizer.
Local Open Scope R_scope.

(** X13.  Malformed input never changes the stabilizer: with landmarks or
    confidences absent, a landmark count other than 17, or fewer than 17
    confidences, [update] returns [None] and leaves the object as it was;
    with 17 landmarks and more than 17 confidences the masking raises
    IndexError, again before anything is stored. *)
Theorem update_rejects_malformed_input :
  forall (self : t) (kps : landmarks) (conf : list R),
    update self None (Some conf) = (inr None, self) /\
    update self (Some kps) None = (inr None, self) /\
    (length kps <> 17%nat \/ (length conf < 17)%nat ->
     update self (Some kps) (Some conf) = (inr None, self)) /\
    (length kps = 17%nat -> (17 < length conf)%nat ->
     update self (Some kps) (Some conf) = (inl IndexError, self)).
Proof.
  intros self kps conf. split; [reflexivity|]. split; [reflexivity|].
  unfold update. split.
  - intros [Hk|Hc].
    + destruct (Nat.eqb_spec (length kps) 17); [contradiction|reflexivity].
    + apply Nat.ltb_lt in Hc. rewrite Hc, orb_true_r. reflexivity.
  - intros Hk Hc. rewrite Hk, length_map. cbn [Nat.eqb negb orb].
    destruct (Nat.ltb_spec (length conf) 17); [lia|].
    destruct (Nat.eqb_spec (length conf) 17); [lia|]. reflexivity.
Qed.

Lemma update_rejects_malformed_input_witness :
  update default (Some (repeat (100, 100) 16)) (Some (repeat (9 / 10) 17))
  = (inr None, default) /\
  update default (Some (repeat (100, 100) 17)) (Some (repeat (9 / 10) 18))
  = (inl IndexError, default).
Proof.
  pose proof (update_rejects_malformed_input default (repeat (100, 100) 16)
                (repeat (9 / 10) 17)) as (_ & _ & H1 & _).
  pose proof (update_rejects_malformed_input default (repeat (100, 100) 17)
                (repeat (9 / 10) 18)) as (_ & _ & _ & H2).
  split.
  - apply H1. left. cbn. lia.
  - apply H2; cbn; lia.
Defined.

(** A well-formed update on a well-formed stabilizer, first or later. *)
Lemma update_well_formed (self : t) (kps : landmarks) (conf : list R) :
  stabilizer_ok self -> length kps = 17%nat -> length conf = 17%nat ->
  exists out,
    update self (Some kps) (Some conf)
    = (inr (Some out), with_state self out) /\
    length out = 17%nat /\
    forall i, nth_error out i =
              match state self with
              | None => nth_error (masked kps conf) i
              | Some st =>
                  match nth_error st i, nth_error (masked kps conf) i with
                  | Some prev, Some cur => Some (smooth self prev cur)
                  | _, _ => None
                  end
              end.
Proof.
  unfold stabilizer_ok. intros Hok Hk Hc.
  destruct (state self) as [st|] eqn:Hs.
  - exists (smoothed self st (masked kps conf)). split; [|split].
    + apply update_next; assumption.
    + rewrite length_smoothed; [assumption|].
      rewrite length_masked; lia.
    + intro i. apply nth_error_smoothed.
  - exists (masked kps conf). split; [|split].
    + apply update_first; assumption.
    + rewrite length_masked; lia.
    + reflexivity.
Qed.

(** What every well-formed update returns and stores. *)
Lemma update_masks_low_confidence :
  forall (self : t) (kps : landmarks) (conf : list R),
    stabilizer_ok self -> length kps = 17%nat -> length conf = 17%nat ->
    exists out,
      update self (Some kps) (Some conf)
      = (inr (Some out), with_state self out) /\
      length out = 17%nat /\ stabilizer_ok (with_state self out) /\
      forall i c,
        nth_error conf i = Some c -> c < KEYPT_MIN_CONF ->
        nth_error out i = Some sentinel.
Proof.
  intros self kps conf Hok Hk Hc.
  destruct (update_well_formed self kps conf Hok Hk Hc)
    as (out & Hu & Hl & Hnth).
  exists out. split; [exact Hu|]. split; [exact Hl|]. split; [exact Hl|].
  intros i c Hi Hlow.
  assert (Hlt : (i < 17)%nat).
  { rewrite <- Hc. apply nth_error_Some. congruence. }
  assert (Hm : nth_error (masked kps conf) i = Some sentinel).
  { rewrite nth_error_masked, Hi.
    destruct (nth_error kps i) eqn:Ek;
      [|apply nth_error_None in Ek; lia].
    destruct (Rleb_spec KEYPT_MIN_CONF c); [lra|reflexivity]. }
  rewrite Hnth. unfold stabilizer_ok in Hok.
  destruct (state self) as [st|]; [|exact Hm].
  rewrite Hm.
  destruct (nth_error st i) eqn:Es; [|apply nth_error_None in Es; lia].
  rewrite smooth_invalid_current by apply invalid_sentinel. reflexivity.
Qed.

Lemma clearly_low_is_low (c : R) :
  c <= CONF_CLEARLY_LOW -> c < KEYPT_MIN_CONF.
Proof. unfold CONF_CLEARLY_LOW, KEYPT_MIN_CONF. lra. Qed.

(** X14.  On every update with 17 landmarks and 17 confidences the
    returned array has 17 rows and is what the stabilizer stores, and a
    joint whose confidence is at most 0.3499999 (below the floor 0.35
    also after rounding to single precision) comes out as the sentinel
    (-1, -1), on the first update as on any later one. *)
Theorem clearly_low_confidence_joint_is_sentinel :
  forall (self : t) (kps : landmarks) (conf : list R),
    stabilizer_ok self -> length kps = 17%nat -> length conf = 17%nat ->
    exists out,
      update self (Some kps) (Some conf)
      = (inr (Some out), with_state self out) /\
      length out = 17%nat /\ stabilizer_ok (with_state self out) /\
      forall i c,
        nth_error conf i = Some c -> c <= CONF_CLEARLY_LOW ->
        nth_error out i = Some sentinel.
Proof.
  intros self kps conf Hok Hk Hc.
  destruct (update_masks_low_confidence self kps conf Hok Hk Hc)
    as (out & Hu & Hl & Hok' & Hlow).
  exists out. repeat split; try assumption.
  intros i c Hi Hle. apply (Hlow i c Hi), clearly_low_is_low, Hle.
Qed.

Lemma clearly_low_confidence_joint_is_sentinel_witness :
  exists out,
    update default (Some (repeat (100, 100) 17))
      (Some (1 / 10 :: repeat (9 / 10) 16))
    = (inr (Some out), with_state default out) /\
    nth_error out 0 = Some sentinel.
Proof.
  destruct (clearly_low_confidence_joint_is_sentinel default
              (repeat (100, 100) 17)
              (1 / 10 :: repeat (9 / 10) 16) I eq_refl eq_refl)
    as (out & Hu & _ & _ & Hlow).
  exists out. split; [exact Hu|].
  apply (Hlow 0%nat (1 / 10)); [reflexivity|].
  unfold CONF_CLEARLY_LOW. lra.
Defined.

Lemma invalid_false (p : landmark) :
  invalid p = false <-> 0 < fst p /\ 0 < snd p.
Proof.
  unfold invalid.
  destruct (Rleb_spec (fst p) 0), (Rleb_spec (snd p) 0); cbn;
    split; intros; try discriminate; try reflexivity; lra.
Qed.

(** A blend of two valid values with a factor in [0, 1] is valid. *)
Lemma blend_valid (alpha : R) (prev cur : landmark) :
  0 <= alpha <= 1 -> invalid prev = false -> invalid cur = false ->
  invalid (blend alpha prev cur) = false.
Proof.
  intros [H0 H1] Hp Hc. apply invalid_false in Hp, Hc. apply invalid_false.
  destruct Hp, Hc. unfold blend. cbn [fst snd]. split; nra.
Qed.

Lemma smooth_validity (self : t) (prev cur : landmark) :
  0 <= alpha_fast self <= 1 -> 0 <= alpha_slow self <= 1 ->
  invalid (smooth self prev cur) = invalid cur.
Proof.
  intros Hf Hs. unfold smooth.
  destruct (invalid cur) eqn:Hc; [apply invalid_sentinel|].
  destruct (invalid prev) eqn:Hp; [exact Hc|].
  match goal with |- context [if ?b then _ else _] => destruct b end;
    apply (blend_valid _ prev cur); assumption.
Qed.

(** X15.  With smoothing factors between 0 and 1, on a later update a
    joint with confidence at least 0.35 comes out valid exactly when its
    current landmark is valid (both coordinates positive), whatever is
    stored for it. *)
Theorem validity_follows_current :
  forall (self : t) (st kps : landmarks) (conf : list R),
    state self = Some st -> length st = 17%nat ->
    length kps = 17%nat -> length conf = 17%nat ->
    0 <= alpha_fast self <= 1 -> 0 <= alpha_slow self <= 1 ->
    exists out,
      update self (Some kps) (Some conf)
      = (inr (Some out), with_state self out) /\
      forall i p c,
        nth_error kps i = Some p -> nth_error conf i = Some c ->
        KEYPT_MIN_CONF <= c ->
        exists o, nth_error out i = Some o /\ invalid o = invalid p.
Proof.
  intros self st kps conf Hs Hl Hk Hc Hf Hsl.
  exists (smoothed self st (masked kps conf)).
  split; [apply update_next; assumption|].
  intros i p c Hp Hci Hge.
  assert (Hi : (i < 17)%nat).
  { rewrite <- Hk. apply nth_error_Some. congruence. }
  destruct (nth_error st i) as [prev|] eqn:Hprev;
    [|apply nth_error_None in Hprev; lia].
  exists (smooth self prev p). split.
  - rewrite nth_error_smoothed, Hprev, nth_error_masked, Hp, Hci.
    destruct (Rleb_spec KEYPT_MIN_CONF c); [reflexivity|contradiction].
  - apply smooth_validity; assumption.
Qed.

Lemma validity_follows_current_witness :
  exists out o,
    update (with_state default (repeat (100, 100) 17))
      (Some (repeat (110, 100) 17)) (Some (repeat (9 / 10) 17))
    = (inr (Some out), with_state default out) /\
    nth_error out 0 = Some o /\ invalid o = invalid (110, 100).
Proof.
  destruct (validity_follows_current
              (with_state default (repeat (100, 100) 17))
              (repeat (100, 100) 17) (repeat (110, 100) 17)
              (repeat (9 / 10) 17) eq_refl eq_refl eq_refl eq_refl)
    as (out & Hu & Hv).
  - cbn. lra.
  - cbn. lra.
  - destruct (Hv 0%nat (110, 100) (9 / 10) eq_refl eq_refl) as (o & Ho & Hi).
    + unfold KEYPT_MIN_CONF. lra.
    + exists out, o. auto.
Defined.

(** A triple with an invalid point has no angle. *)
Lemma angle_3pt_invalid (a b c : point) :
  _valid_point a = false \/ _valid_point b = false \/
  _valid_point c = false ->
  angle_3pt a b c = None.
Proof.
  unfold angle_3pt. intros [H|[H|H]]; rewrite H;
    rewrite ?andb_false_r; reflexivity.
Qed.

Lemma row_as_rows (out : landmarks) (i : nat) :
  Angles.row (Angles.as_rows out) i =
  match nth_error out i with
  | Some p => inr (Some [fst p; snd p])
  | None => inl IndexError
  end.
Proof.
  unfold Angles.row, Angles.as_rows. rewrite nth_error_map.
  unfold landmarks, landmark in *.
  destruct (nth_error out i); reflexivity.
Qed.

Lemma sentinel_row_invalid : _valid_point (Some [-1; -1]) = false.
Proof.
  cbn [_valid_point]. destruct (Rltb_spec 0 (-1)); [lra|reflexivity].
Qed.

(** Rows inside the array give an angle or none, never an exception, and
    a sentinel among the three rows gives none. *)
Lemma angle_rows_as_rows (out : landmarks) (i j k : nat) :
  (i < length out)%nat -> (j < length out)%nat -> (k < length out)%nat ->
  (exists r, Angles.angle_rows (Angles.as_rows out) i j k = inr r) /\
  (nth_error out i = Some sentinel \/ nth_error out j = Some sentinel \/
   nth_error out k = Some sentinel ->
   Angles.angle_rows (Angles.as_rows out) i j k = inr None).
Proof.
  intros Hi Hj Hk. unfold Angles.angle_rows. rewrite 3 row_as_rows.
  destruct (nth_error out i) as [pi|] eqn:Ei;
    [|apply nth_error_None in Ei; lia].
  destruct (nth_error out j) as [pj|] eqn:Ej;
    [|apply nth_error_None in Ej; lia].
  destruct (nth_error out k) as [pk|] eqn:Ek;
    [|apply nth_error_None in Ek; lia].
  split; [eexists; reflexivity|].
  intros H. f_equal. apply angle_3pt_invalid.
  destruct H as [[= ->]|[[= ->]|[= ->]]]; cbn [fst snd sentinel];
    rewrite sentinel_row_invalid; auto.
Qed.

(** X16.  A joint of clearly low confidence silences every angle that
    uses it: on the landmarks an update returns, a hip, knee or ankle with
    confidence at most 0.3499999 leaves that side's knee angle absent, and
    a shoulder, hip or ankle with confidence at most 0.3499999 leaves that
    side's hip angle absent; neither [knee_angles] nor [hip_angle_side]
    raises on them. *)
Theorem clearly_low_confidence_silences_angles :
  forall (self self' : t) (kps out : landmarks) (conf : list R)
         (i : nat) (c : R),
    stabilizer_ok self -> length kps = 17%nat -> length conf = 17%nat ->
    update self (Some kps) (Some conf) = (inr (Some out), self') ->
    nth_error conf i = Some c -> c <= CONF_CLEARLY_LOW ->
    (In i [11; 13; 15]%nat ->
     exists r, Angles.knee_angles (Angles.as_rows out) = inr (None, r)) /\
    (In i [12; 14; 16]%nat ->
     exists l, Angles.knee_angles (Angles.as_rows out) = inr (l, None)) /\
    (In i [5; 11; 15]%nat ->
     Angles.hip_angle_side (Angles.as_rows out) "l" = inr None) /\
    (In i [6; 12; 16]%nat ->
     Angles.hip_angle_side (Angles.as_rows out) "r" = inr None).
Proof.
  intros self self' kps out conf i c Hok Hk Hc Hu Hi Hlow.
  destruct (update_masks_low_confidence self kps conf Hok Hk Hc)
    as (out' & Hu' & Hl & _ & Hsent).
  rewrite Hu in Hu'. injection Hu' as Hout _.
  assert (Hso : nth_error out i = Some sentinel)
    by (rewrite Hout; apply (Hsent i c);
        [assumption | apply clearly_low_is_low; assumption]).
  rewrite <- Hout in Hl. clear Hsent Hout out'.
  unfold Angles.knee_angles, Angles.hip_angle_side.
  change (Angles.kp "lhip") with 11%nat.
  change (Angles.kp "lknee") with 13%nat.
  change (Angles.kp "lank") with 15%nat.
  change (Angles.kp "rhip") with 12%nat.
  change (Angles.kp "rknee") with 14%nat.
  change (Angles.kp "rank") with 16%nat.
  change (Angles.kp "lsh") with 5%nat.
  change (Angles.kp "rsh") with 6%nat.
  cbn [String.eqb Ascii.eqb Bool.eqb].
  destruct (angle_rows_as_rows out 11 13 15) as [[l Hl1] Hl2]; try lia.
  destruct (angle_rows_as_rows out 12 14 16) as [[r Hr1] Hr2]; try lia.
  destruct (angle_rows_as_rows out 5 11 15) as [_ Hhl]; try lia.
  destruct (angle_rows_as_rows out 6 12 16) as [_ Hhr]; try lia.
  repeat split.
  - intros Hin. exists r. rewrite Hl2, Hr1; [reflexivity|].
    cbn in Hin. destruct Hin as [<-|[<-|[<-|[]]]]; auto.
  - intros Hin. exists l. rewrite Hl1, Hr2; [reflexivity|].
    cbn in Hin. destruct Hin as [<-|[<-|[<-|[]]]]; auto.
  - intros Hin. apply Hhl.
    cbn in Hin. destruct Hin as [<-|[<-|[<-|[]]]]; auto.
  - intros Hin. apply Hhr.
    cbn in Hin. destruct Hin as [<-|[<-|[<-|[]]]]; auto.
Qed.

Lemma clearly_low_confidence_silences_angles_witness :
  let kps := repeat (100, 100) 17 in
  let conf := repeat (9 / 10) 13 ++ 1 / 10 :: repeat (9 / 10) 3 in
  update default (Some kps) (Some conf)
  = (inr (Some (masked kps conf)), with_state default (masked kps conf)) /\
  exists r,
    Angles.knee_angles (Angles.as_rows (masked kps conf)) = inr (None, r).
Proof.
  intros kps conf.
  pose proof (update_first default kps conf eq_refl eq_refl eq_refl) as Hu.
  split; [exact Hu|].
  apply (proj1 (clearly_low_confidence_silences_angles default _ kps _
                  conf 13%nat (1 / 10) I eq_refl eq_refl Hu eq_refl
                  ltac:(unfold CONF_CLEARLY_LOW; lra))).
  cbn. auto.
Defined.

End StabilizerExtras.

(** ** Further properties of the subject selector *)

Section SelectorExtras.
Local Open Scope R_scope.

Lemma py_maxR_comm (a b : R) : py_maxR a b = py_maxR b a.
Proof.
  unfold py_maxR. destruct (Rltb_spec a b), (Rltb_spec b a); lra.
Qed.

Lemma py_minR_comm (a b : R) : py_minR a b = py_minR b a.
Proof.
  unfold py_minR. destruct (Rltb_spec a b), (Rltb_spec b a); lra.
Qed.


(** X18.  The overlap ratio does not depend on the order of the two
    boxes. *)
Theorem iou_symmetric :
  forall a b : option box, _iou a b = _iou b a.
Proof.
  intros [[[[ax1 ay1] ax2] ay2]|] [[[[bx1 by1] bx2] by2]|];
    try reflexivity.
  cbn [_iou].
  rewrite (py_maxR_comm bx1 ax1), (py_maxR_comm by1 ay1),
    (py_minR_comm bx2 ax2), (py_minR_comm by2 ay2).
  unfold Rdiv. f_equal. f_equal. ring.
Qed.

(** X19.  The centre bonus lies between 0 and 0.15, and a box whose
    centre is the centre of a frame of width and height at least 1 gets
    exactly 0.15. *)
Theorem center_bonus_bounds :
  forall (x1 y1 x2 y2 : R) (W H : Z),
    0 <= _bbox_center_bonus (x1, y1, x2, y2) W H <= 15 / 100 /\
    ((1 <= W)%Z -> (1 <= H)%Z -> x1 + x2 = IZR W -> y1 + y2 = IZR H ->
     _bbox_center_bonus (x1, y1, x2, y2) W H = 15 / 100).
Proof.
  intros x1 y1 x2 y2 W H. split.
  - split; [apply _bbox_center_bonus_nonneg|].
    unfold _bbox_center_bonus.
    match goal with |- py_maxR 0 (_ - sqrt ?d) <= _ =>
      pose proof (sqrt_pos d) as Hd;
      destruct (py_maxR_cases 0 (15 / 100 - sqrt d)) as [[_ ->]|[_ ->]]
    end; lra.
  - intros HW HH Hx Hy. apply IZR_le in HW, HH.
    unfold _bbox_center_bonus. rewrite Hx, Hy.
    assert (EW : py_maxR 1 (IZR W) = IZR W).
    { destruct (py_maxR_cases 1 (IZR W)) as [[? ->]|[_ ->]]; lra. }
    assert (EH : py_maxR 1 (IZR H) = IZR H).
    { destruct (py_maxR_cases 1 (IZR H)) as [[? ->]|[_ ->]]; lra. }
    rewrite EW, EH.
    replace (1 / 2 * IZR W / IZR W - 1 / 2) with 0 by (field; lra).
    replace (1 / 2 * IZR H / IZR H - 1 / 2) with 0 by (field; lra).
    replace (0 * 0 + 0 * 0) with 0 by ring.
    rewrite sqrt_0, py_maxR_r by lra. lra.
Qed.

Lemma center_bonus_bounds_witness :
  _bbox_center_bonus (40, 40, 60, 60) 100 100 = 15 / 100.
Proof.
  apply (proj2 (center_bonus_bounds 40 40 60 60 100 100)); try lia; lra.
Defined.

(** Once the loop has raised, it stays raised. *)
Lemma select_loop_raised (W H : Z) (prev_bb : option box)
    (kconf : list (list R)) (bxs : list box) (e : exn) (l : list nat) :
  fold_left (select_step W H prev_bb kconf bxs) l (inl e) = inl e.
Proof. induction l as [|i l IH]; [reflexivity|exact IH]. Qed.

(** X20.  With nobody to pick, [pick_best_person] returns "none" and does
    not raise: for an absent result, absent keypoints, zero persons,
    absent confidences or absent boxes.  With fewer boxes than persons it
    raises IndexError. *)
Theorem pick_best_person_edge_cases :
  forall (W H : Z) (prev_bb : option box),
    pick_best_person None W H prev_bb = inr None /\
    (forall bxs,
       pick_best_person (Some (mkResults None bxs)) W H prev_bb = inr None)
    /\
    (forall kconf bxs,
       pick_best_person
         (Some (mkResults (Some (mkKeypoints (Some []) kconf)) bxs))
         W H prev_bb = inr None) /\
    (forall kxy bxs,
       pick_best_person
         (Some (mkResults (Some (mkKeypoints (Some kxy) None)) bxs))
         W H prev_bb = inr None) /\
    (forall kxy kconf,
       pick_best_person
         (Some (mkResults (Some (mkKeypoints (Some kxy) kconf)) None))
         W H prev_bb = inr None) /\
    (forall kxy kconf bxs,
       length kconf = length kxy -> (length bxs < length kxy)%nat ->
       pick_best_person (detections kxy kconf bxs) W H prev_bb
       = inl IndexError).
Proof.
  intros W H prev_bb. unfold pick_best_person.
  split; [reflexivity|]. split; [reflexivity|]. split; [reflexivity|].
  split; [|split].
  - intros kxy bxs. cbn [keypoints xy conf len_keypoints].
    destruct (Nat.eqb (length kxy) 0); reflexivity.
  - intros kxy kconf. cbn [keypoints boxes xy conf len_keypoints].
    destruct (Nat.eqb (length kxy) 0); [reflexivity|].
    destruct kconf; reflexivity.
  - intros kxy kconf bxs Hk Hb. unfold detections.
    cbn [keypoints boxes xy conf len_keypoints].
    destruct (Nat.eqb_spec (length kxy) 0) as [E|_]; [lia|].
    replace (length kxy)
      with (length bxs + S (length kxy - S (length bxs)))%nat by lia.
    rewrite seq_app, fold_left_app.
    destruct (select_loop W H prev_bb kconf bxs (length bxs))
      as ([bi bs] & -> & _); [lia|lia|].
    cbn [seq fold_left select_step Nat.add].
    rewrite (proj2 (nth_error_None bxs (length bxs))) by lia.
    rewrite select_loop_raised. reflexivity.
Qed.

Lemma pick_best_person_edge_cases_witness :
  pick_best_person
    (detections [repeat (50, 50) 17; repeat (50, 50) 17]
       [repeat (9 / 10) 17; repeat (9 / 10) 17] [box_centre])
    100 100 None
  = inl IndexError.
Proof.
  apply (proj2 (proj2 (proj2 (proj2 (proj2
           (pick_best_person_edge_cases 100 100 None))))));
    cbn; lia.
Defined.




End SelectorExtras.

(** ** Properties of the registry and of the main loop's controls *)

Lemma exercise_store_quality q rc :
  exercise (store_quality q rc) = exercise rc.
Proof. destruct q; reflexivity. Qed.

Lemma exercise_hyst_step {F : Type} (M : hysteresis F) f rc :
  exercise (hyst_step M f rc) = exercise rc.
Proof.
  unfold hyst_step. destruct (measured M f); [|reflexivity].
  rewrite exercise_store_quality.
  repeat match goal with
         | |- context [if ?c then _ else _] => destruct c
         end; reflexivity.
Qed.

Section MainLoopFacts.

Variable Kps : Type.
Variable knee_angles : Kps -> option Q * option Q.
Variable hip_angle_side : Kps -> string -> option Q.

(** On a registered exercise the frame logic finds its entry both times
    and leaves the exercise name alone. *)
Lemma frame_logic_registered kps rc :
  registered (exercise rc) ->
  exists rc',
    frame_logic knee_angles hip_angle_side kps rc = inr rc' /\
    exercise rc' = exercise rc.
Proof.
  unfold registered, frame_logic, EXER_REG_get.
  intros [E|[E|E]]; destruct kps as [kps|]; rewrite E;
    cbn [EXER_REG find fst snd String.eqb Ascii.eqb Bool.eqb];
    rewrite ?logic_squat_hyst, ?logic_sts_hyst, ?logic_leg_raise_hyst,
      ?exercise_hyst_step, ?E;
    cbn [find fst snd String.eqb Ascii.eqb Bool.eqb];
    eexists; (split; [reflexivity|]);
    rewrite ?exercise_hyst_step; auto.
Qed.

Lemma RES_IDX_step (i : Z) :
  0 <= (i - 1) mod Z.of_nat (length RES_MODES) < 4 /\
  0 <= (i + 1) mod Z.of_nat (length RES_MODES) < 4.
Proof. cbn [RES_MODES length Z.of_nat]. split; apply Z.mod_pos_bound; lia. Qed.

(** The controls keep a registered exercise registered and the
    resolution index inside the table. *)
Lemma controls_invariant k st st' :
  registered (exercise (rc st)) -> 0 <= RES_IDX st < 4 ->
  controls k st = Some st' ->
  registered (exercise (rc st')) /\ 0 <= RES_IDX st' < 4.
Proof.
  intros Hr Hi. unfold controls.
  pose proof (RES_IDX_step (RES_IDX st)) as [Hm Hp].
  repeat match goal with
         | |- context [if ?c then _ else _] => destruct c
         end; try discriminate; intros [= <-]; cbn [rc RES_IDX reset exercise];
    unfold registered; cbn; auto.
Qed.

Lemma main_loop_invariant iters st :
  registered (exercise (rc st)) -> 0 <= RES_IDX st < 4 ->
  exists st',
    main_loop knee_angles hip_angle_side iters st = inr st' /\
    registered (exercise (rc st')) /\ 0 <= RES_IDX st' < 4.
Proof.
  revert st. induction iters as [|[kps k] iters IH]; intros st Hr Hi.
  - exists st. cbn. auto.
  - cbn [main_loop].
    destruct (frame_logic_registered kps (rc st) Hr) as (rc' & -> & He).
    set (st1 := mkLoop rc' (recording st) (show_help st) (RES_IDX st)).
    assert (Hr1 : registered (exercise (rc st1)))
      by (cbn; rewrite He; exact Hr).
    destruct (controls k st1) as [st2|] eqn:Hc.
    + destruct (controls_invariant k st1 st2 Hr1 Hi Hc) as [Hr2 Hi2].
      apply IH; assumption.
    + exists st1. auto.
Qed.

End MainLoopFacts.

Section MainLoopExtras.
Import Ascii.

(** X22.  The resolution keys cycle through the table and undo each
    other: from an index inside [RES_MODES], "[" and "]" give an index
    inside the table again (wrapping around at both ends) and change
    nothing else, and pressing one after the other restores the state. *)
Theorem resolution_keys_cycle :
  forall st : Loop,
    0 <= RES_IDX st < Z.of_nat (length RES_MODES) ->
    (forall k, k = ord "["%char \/ k = ord "]"%char ->
       exists st',
         controls k st = Some st' /\
         0 <= RES_IDX st' < Z.of_nat (length RES_MODES) /\
         rc st' = rc st /\ recording st' = recording st /\
         show_help st' = show_help st) /\
    (exists st1,
       controls (ord "["%char) st = Some st1 /\
       controls (ord "]"%char) st1 = Some st) /\
    (exists st1,
       controls (ord "]"%char) st = Some st1 /\
       controls (ord "["%char) st1 = Some st).
Proof.
  intros [r rec sh idx]. cbn [RES_IDX RES_MODES length Z.of_nat]. intro Hi.
  assert (Hc : idx = 0 \/ idx = 1 \/ idx = 2 \/ idx = 3) by lia.
  split; [|split].
  - intros k [-> | ->]; eexists; (split; [reflexivity|]);
      cbn [RES_IDX rc recording show_help];
      destruct Hc as [-> | [-> | [-> | ->]]]; vm_compute; intuition congruence.
  - eexists. split; [reflexivity|].
    destruct Hc as [-> | [-> | [-> | ->]]]; reflexivity.
  - eexists. split; [reflexivity|].
    destruct Hc as [-> | [-> | [-> | ->]]]; reflexivity.
Qed.

Lemma resolution_keys_cycle_witness :
  exists st',
    controls (ord "["%char) (mkLoop RepCounter_default false true 0)
    = Some st' /\
    RES_IDX st' = 3.
Proof.
  destruct (proj1 (resolution_keys_cycle
                     (mkLoop RepCounter_default false true 0)
                     ltac:(cbn; lia))
              (ord "["%char) (or_introl eq_refl))
    as (st' & Hc & _).
  exists st'. split; [exact Hc|].
  cbn in Hc. injection Hc as <-. reflexivity.
Defined.

(** X23.  The main loop never fails to find the exercise in the
    registry: whatever landmarks arrive and whatever keys are pressed, the
    loop started as in [main] runs without KeyError, its counter's
    exercise is always one of "squat", "sts", "leg_raise", and its
    resolution index stays inside [RES_MODES]. *)
Theorem main_loop_never_raises_KeyError :
  forall (Kps : Type) (knee_angles : Kps -> option Q * option Q)
         (hip_angle_side : Kps -> string -> option Q)
         (iters : list (option Kps * Z)),
    exists st,
      main_loop knee_angles hip_angle_side iters Loop_initial = inr st /\
      registered (exercise (rc st)) /\
      0 <= RES_IDX st < Z.of_nat (length RES_MODES).
Proof.
  intros Kps knee_angles hip_angle_side iters.
  apply main_loop_invariant.
  - left. reflexivity.
  - cbn. lia.
Qed.

End MainLoopExtras.
